(** * OpenVoice voice server: checkpoint bootstrap and request handlers

    A shallow embedding of [openvoice/voice_server.py].  The working tree
    of the process is a tree of directories and files, the two SQLite
    tables are lists of rows in insertion order, and every call into the
    model library (embedding extraction, synthesis, conversion, torch
    load and save) is a field of an environment record, so that each
    statement below quantifies over all behaviours of those black boxes. *)

From Stdlib Require Import List String Ascii ZArith Bool Lia.
From Stdlib Require Import Floats.PrimFloat.
From Stdlib Require Import Sorting.Sorted Sorting.Permutation.
From stdpp Require Import base option list strings gmap.
Import ListNotations.
Open Scope string_scope.
Open Scope list_scope.

(** ** The working tree *)

Module FS.

(** File contents are opaque to the server: it only moves, writes and
    deletes whole files. *)
Definition blob := string.

#[warnings="-register-all"]
Inductive node :=
| File (data : blob)
| Dir (entries : list (string * node)).

(** A path is the list of its components, relative to the directory the
    tree is rooted at; [f"{d}/converter/config.json"] is
    [d ++ ["converter"; "config.json"]]. *)
Definition path := list string.

Fixpoint assoc {A} (k : string) (l : list (string * A)) : option A :=
  match l with
  | [] => None
  | (k', v) :: l' => if String.eqb k k' then Some v else assoc k l'
  end.

(** Replace the entry named [k], or add it at the end. *)
Fixpoint assoc_set {A} (k : string) (v : A) (l : list (string * A)) : list (string * A) :=
  match l with
  | [] => [(k, v)]
  | (k', v') :: l' =>
      if String.eqb k k' then (k, v) :: l' else (k', v') :: assoc_set k v l'
  end.

(** Drop the entries named [k]. *)
Fixpoint assoc_del {A} (k : string) (l : list (string * A)) : list (string * A) :=
  match l with
  | [] => []
  | (k', v') :: l' =>
      if String.eqb k k' then assoc_del k l' else (k', v') :: assoc_del k l'
  end.

Fixpoint resolve (n : node) (p : path) : option node :=
  match p with
  | [] => Some n
  | c :: p' =>
      match n with
      | File _ => None
      | Dir es =>
          match assoc c es with
          | Some n' => resolve n' p'
          | None => None
          end
      end
  end.

(** [os.path.exists], [os.path.isdir] and [os.path.isfile]. *)
Definition path_exists (fs : node) (p : path) : bool :=
  match resolve fs p with Some _ => true | None => false end.

Definition isdir (fs : node) (p : path) : bool :=
  match resolve fs p with Some (Dir _) => true | _ => false end.

Definition isfile (fs : node) (p : path) : bool :=
  match resolve fs p with Some (File _) => true | _ => false end.

(** [os.listdir]: the names of a directory, in directory order. *)
Definition listdir (fs : node) (p : path) : option (list string) :=
  match resolve fs p with
  | Some (Dir es) => Some (map fst es)
  | _ => None
  end.

(** Bind [x] at [p]; the parent of [p] has to be an existing directory. *)
Fixpoint put (n : node) (p : path) (x : node) : option node :=
  match p with
  | [] => Some x
  | c :: p' =>
      match n with
      | File _ => None
      | Dir es =>
          match p' with
          | [] => Some (Dir (assoc_set c x es))
          | _ :: _ =>
              match assoc c es with
              | Some n' =>
                  match put n' p' x with
                  | Some n'' => Some (Dir (assoc_set c n'' es))
                  | None => None
                  end
              | None => None
              end
          end
      end
  end.

(** Unbind [p]; [None] when nothing is there. *)
Fixpoint remove (n : node) (p : path) : option node :=
  match p with
  | [] => None
  | c :: p' =>
      match n with
      | File _ => None
      | Dir es =>
          match assoc c es with
          | None => None
          | Some n' =>
              match p' with
              | [] => Some (Dir (assoc_del c es))
              | _ :: _ =>
                  match remove n' p' with
                  | Some n'' => Some (Dir (assoc_set c n'' es))
                  | None => None
                  end
              end
          end
      end
  end.

(** [os.makedirs(p, exist_ok=True)]: creates the missing directories along
    [p]; fails when a component of [p] is a regular file. *)
Fixpoint makedirs (n : node) (p : path) : option node :=
  match n with
  | File _ => None
  | Dir es =>
      match p with
      | [] => Some n
      | c :: p' =>
          match makedirs (match assoc c es with Some n' => n' | None => Dir [] end) p' with
          | Some n'' => Some (Dir (assoc_set c n'' es))
          | None => None
          end
      end
  end.

(** [os.walk(top)], top-down: the directory itself, then the walk of each
    of its sub-directories in directory order.  Only the [root] component
    of each triple is used by the callers. *)
Fixpoint walk (n : node) (root : path) : list path :=
  match n with
  | File _ => []
  | Dir es =>
      root ::
      (fix walk_entries (l : list (string * node)) : list path :=
         match l with
         | [] => []
         | (c, n') :: l' => walk n' (root ++ [c]) ++ walk_entries l'
         end) es
  end.

End FS.

(** ** Exceptions *)

(** The exceptions the server can meet, by class.  [HTTPException] carries
    the status code and the detail string of the response. *)
Inductive exn :=
| RuntimeError (msg : string)
| OSError (msg : string)
| URLError
| BadZipFile
| ShutilError
| ModelError (msg : string)
| DatabaseError (msg : string)
| HTTPException (status_code : Z) (detail : string).

Inductive result (A : Type) :=
| Ok (a : A)
| Raise (e : exn).
Arguments Ok {A} a.
Arguments Raise {A} e.

(** [str(e)], as used in the detail of the 500 responses. *)
Definition str_exn (e : exn) : string :=
  match e with
  | RuntimeError m => m
  | OSError m => m
  | URLError => "<urlopen error>"
  | BadZipFile => "File is not a zip file"
  | ShutilError => "Destination path already exists"
  | ModelError m => m
  | DatabaseError m => m
  | HTTPException c d => d
  end.

(** ** Checkpoint bootstrap *)

Module Bootstrap.
Import FS.

(** What [urlretrieve] followed by [ZipFile.extractall(tmp_dir)] yields:
    a failed download, a file that is no archive, or the content of the
    fresh temporary directory after extraction. *)
Inductive fetched :=
| FetchError
| NotAZip
| Archive (entries : list (string * node)).

(** [shutil.move(src, dst)] from the temporary tree into the working tree.
    An existing directory [dst] receives [src] under its own name, unless
    that name is taken there; a file replaces a file; a directory does not
    replace anything. *)
Definition shutil_move (fs tmp : node) (src dst : path) : option (node * node) :=
  match resolve tmp src, last src with
  | Some x, Some base =>
      let real_dst := if isdir fs dst then dst ++ [base] else dst in
      if isdir fs dst && path_exists fs real_dst then None
      else if (match x with Dir _ => path_exists fs real_dst | File _ => false end) then None
      else
        match put fs real_dst x, remove tmp src with
        | Some fs', Some tmp' => Some (fs', tmp')
        | _, _ => None
        end
  | _, _ => None
  end.

(** The merge loop shared by both bootstrap functions:
    [for item in os.listdir(candidate_root): ...].  A failing move leaves
    the items moved so far in place. *)
Fixpoint merge_items (candidate_root target : path) (items : list string)
    (fs tmp : node) : result unit * node :=
  match items with
  | [] => (Ok tt, fs)
  | item :: rest =>
      let src := candidate_root ++ [item] in
      let dst := target ++ [item] in
      if isdir tmp src then
        if negb (path_exists fs dst) then
          match shutil_move fs tmp src dst with
          | Some (fs', tmp') => merge_items candidate_root target rest fs' tmp'
          | None => (Raise ShutilError, fs)
          end
        else merge_items candidate_root target rest fs tmp
      else
        match shutil_move fs tmp src dst with
        | Some (fs', tmp') => merge_items candidate_root target rest fs' tmp'
        | None => (Raise ShutilError, fs)
        end
  end.

(** The marker test of the scan in [ensure_checkpoints]. *)
Definition has_markers (tmp : node) (root : path) : bool :=
  path_exists tmp (root ++ ["converter"; "config.json"])
  && path_exists tmp (root ++ ["converter"; "checkpoint.pth"]).

(** The marker test of the scan in [ensure_base_checkpoints_v1]. *)
Definition has_markers_v1 (tmp : node) (root : path) : bool :=
  path_exists tmp (root ++ ["base_speakers"; "EN"; "config.json"])
  && path_exists tmp (root ++ ["base_speakers"; "EN"; "checkpoint.pth"]).

(** The [for root, dirs, files in os.walk(tmp_dir)] loop with its [break]:
    the first directory of the walk that passes the test. *)
Definition candidate_root (markers : node -> path -> bool) (tmp : node) : option path :=
  find (markers tmp) (walk tmp []).

Definition required_paths (checkpoint_dir : path) : list path :=
  [ checkpoint_dir ++ ["converter"; "config.json"];
    checkpoint_dir ++ ["converter"; "checkpoint.pth"];
    checkpoint_dir ++ ["base_speakers"; "ses"; "en-newest.pth"] ].

(** [ensure_checkpoints(checkpoint_dir)].  The temporary archive and the
    temporary directory live outside the working tree; the archive is
    unlinked by the [finally] clause and the directory by its context
    manager, on every path. *)
Definition ensure_checkpoints (checkpoint_dir : path) (dl : fetched) (fs : node)
    : result unit * node :=
  if forallb (path_exists fs) (required_paths checkpoint_dir) then (Ok tt, fs)
  else
    match makedirs fs checkpoint_dir with
    | None => (Raise (OSError "File exists"), fs)
    | Some fs1 =>
        match dl with
        | FetchError => (Raise URLError, fs1)
        | NotAZip => (Raise BadZipFile, fs1)
        | Archive es =>
            let tmp := Dir es in
            match candidate_root has_markers tmp with
            | None =>
                (Raise (RuntimeError
                   "Downloaded checkpoints archive does not contain expected structure"),
                 fs1)
            | Some root =>
                match listdir tmp root with
                | Some items => merge_items root checkpoint_dir items fs1 tmp
                | None => (Raise (OSError "Not a directory"), fs1)
                end
            end
        end
    end.

Definition base_dir : path := ["checkpoints"].

Definition req_files : list path :=
  [ base_dir ++ ["base_speakers"; "EN"; "config.json"];
    base_dir ++ ["base_speakers"; "EN"; "checkpoint.pth"] ].

(** [ensure_base_checkpoints_v1()]: returns [base_dir]. *)
Definition ensure_base_checkpoints_v1 (dl : fetched) (fs : node)
    : result path * node :=
  if forallb (path_exists fs) req_files then (Ok base_dir, fs)
  else
    match makedirs fs base_dir with
    | None => (Raise (OSError "File exists"), fs)
    | Some fs1 =>
        match dl with
        | FetchError => (Raise URLError, fs1)
        | NotAZip => (Raise BadZipFile, fs1)
        | Archive es =>
            let tmp := Dir es in
            match candidate_root has_markers_v1 tmp with
            | None =>
                (Raise (RuntimeError
                   "Downloaded V1 checkpoints archive missing EN base TTS"),
                 fs1)
            | Some root =>
                match listdir tmp root with
                | Some items =>
                    match merge_items root base_dir items fs1 tmp with
                    | (Ok _, fs2) => (Ok base_dir, fs2)
                    | (Raise e, fs2) => (Raise e, fs2)
                    end
                | None => (Raise (OSError "Not a directory"), fs1)
                end
            end
        end
    end.

End Bootstrap.

(** ** The service *)

Module Server.
Import FS Bootstrap.

(** *** Tables *)

(** A row of [voice_models]. Paths are stored the way the tree names them. *)
Record voice_row := {
  vm_id : string;
  vm_name : string;
  vm_description : option string;
  vm_file_path : path;
  vm_se_file_path : path;
  vm_created_at : string
}.

(** A row of [generated_audio]. *)
Record audio_row := {
  ga_id : string;
  ga_voice_id : string;
  ga_text : string;
  ga_file_path : path;
  ga_accent : string;
  ga_speed : float;
  ga_created_at : string
}.

(** The process state: the working tree, the two tables, and the calls
    made so far into the model library. *)
Inductive event :=
| GetSE (audio_path : path)
| TorchSave (p : path)
| TorchLoad (p : path)
| BaseSpeakerTTS (config_path : path)
| LoadCkpt (ckpt_path : path)
| TTS (text speaker_key language : string) (speed : float)
| Convert (output_path : path) (message : string).

Record world := {
  fs : node;
  voice_models : list voice_row;
  generated_audio : list audio_row;
  calls : list event
}.

Definition set_fs (f : node) (w : world) : world :=
  {| fs := f; voice_models := voice_models w;
     generated_audio := generated_audio w; calls := calls w |}.

(** *** The collaborators of one request *)

Inductive save_outcome :=
| Saved (data : blob)
| SaveFailed (partial : option blob) (e : exn).

(** The [hps] of a base TTS model, as far as the server reads it. *)
Record tts_model := { speakers : option (list string) }.

Record env := {
  uuid4 : string;
  now_isoformat : string;
  download : fetched;
  db_ok : bool;
  get_se : blob -> result blob;
  torch_save : blob -> save_outcome;
  torch_load : blob -> result blob;
  base_speaker_tts : blob -> result tts_model;
  load_ckpt : blob -> result unit;
  tts : string -> string -> float -> result blob;
  convert : blob -> blob -> blob -> string -> result blob
}.

(** *** State and exceptions *)

Definition M (A : Type) := world -> result A * world.

Definition ret {A} (a : A) : M A := fun w => (Ok a, w).

Definition bind {A B} (m : M A) (k : A -> M B) : M B :=
  fun w => match m w with
           | (Ok a, w') => k a w'
           | (Raise e, w') => (Raise e, w')
           end.

Definition raise {A} (e : exn) : M A := fun w => (Raise e, w).

(** [try: body except Exception as e: handler(e)]. *)
Definition try_except {A} (body : M A) (handler : exn -> M A) : M A :=
  fun w => match body w with
           | (Ok a, w') => (Ok a, w')
           | (Raise e, w') => handler e w'
           end.

Notation "'do' x <- m ; k" := (bind m (fun x => k))
  (at level 10, x name, m at level 100, k at level 200).
Notation "'run' m ; k" := (bind m (fun _ => k))
  (at level 10, m at level 100, k at level 200).

Definition get_fs : M node := fun w => (Ok (fs w), w).

Definition put_fs (f : node) : M unit := fun w => (Ok tt, set_fs f w).

Definition call (ev : event) : M unit :=
  fun w => (Ok tt,
            {| fs := fs w; voice_models := voice_models w;
               generated_audio := generated_audio w; calls := calls w ++ [ev] |}).

Definition lift {A} (r : result A) : M A := fun w => (r, w).

Definition when (b : bool) (m : M unit) : M unit := if b then m else ret tt.

(** *** Files *)

(** [open(p, "wb")] followed by writing [data]. *)
Definition write_file (p : path) (data : blob) : M unit :=
  do f <- get_fs;
  if isdir f p then raise (OSError "Is a directory")
  else match put f p (File data) with
       | Some f' => put_fs f'
       | None => raise (OSError "No such file or directory")
       end.

(** Reading the file at [p], as the loaders of the model library do. *)
Definition read_file (p : path) : M blob :=
  do f <- get_fs;
  match resolve f p with
  | Some (File data) => ret data
  | _ => raise (OSError "No such file or directory")
  end.

(** [os.remove(p)] and [os.path.exists(p)]. *)
Definition os_remove (p : path) : M unit :=
  do f <- get_fs;
  if isfile f p then
    match remove f p with
    | Some f' => put_fs f'
    | None => raise (OSError "No such file or directory")
    end
  else raise (OSError "Operation not permitted").

Definition os_path_exists (p : path) : M bool :=
  do f <- get_fs; ret (path_exists f p).

(** *** Database *)

(** [sqlite3.connect] and every statement fail when the database is not
    usable during this request. *)
Definition db_connect (E : env) : M unit :=
  if db_ok E then ret tt else raise (DatabaseError "unable to open database file").

(** [SELECT se_file_path FROM voice_models WHERE id = ?] and [fetchone]. *)
Definition select_se_file_path (voice_id : string) : M (option path) :=
  fun w => (Ok (option_map vm_se_file_path
                  (find (fun r => String.eqb (vm_id r) voice_id) (voice_models w))), w).

(** [INSERT INTO voice_models] and [commit]; [id] is the primary key. *)
Definition insert_voice_model (E : env) (r : voice_row) : M unit :=
  fun w =>
    if negb (db_ok E) then (Raise (DatabaseError "database is locked"), w)
    else if existsb (fun r' => String.eqb (vm_id r') (vm_id r)) (voice_models w)
    then (Raise (DatabaseError "UNIQUE constraint failed: voice_models.id"), w)
    else (Ok tt,
          {| fs := fs w; voice_models := voice_models w ++ [r];
             generated_audio := generated_audio w; calls := calls w |}).

(** [INSERT INTO generated_audio] and [commit]; [id] is the primary key.
    The foreign key clause is declared but SQLite does not enforce it
    unless the connection asks for it, and no connection does. *)
Definition insert_generated_audio (E : env) (r : audio_row) : M unit :=
  fun w =>
    if negb (db_ok E) then (Raise (DatabaseError "database is locked"), w)
    else if existsb (fun r' => String.eqb (ga_id r') (ga_id r)) (generated_audio w)
    then (Raise (DatabaseError "UNIQUE constraint failed: generated_audio.id"), w)
    else (Ok tt,
          {| fs := fs w; voice_models := voice_models w;
             generated_audio := generated_audio w ++ [r]; calls := calls w |}).

(** *** Configuration *)

Definition VOICES_DIR : string := "voices".
Definition AUDIO_DIR : string := "audio_files".

(** The accent table, [ACCENT_TO_SES_FILE]. *)
Definition ACCENT_TO_SES_FILE : gmap string string :=
  list_to_map
    [ ("en-au", "en-au.pth");
      ("en-br", "en-br.pth");
      ("en-default", "en-default.pth");
      ("en-india", "en-india.pth");
      ("en-newest", "en-newest.pth");
      ("en-us", "en-us.pth");
      ("es", "es.pth");
      ("fr", "fr.pth");
      ("jp", "jp.pth");
      ("kr", "kr.pth");
      ("zh", "zh.pth") ].

(** *** Requests and responses *)

Record upload_file := {
  content_type : string;
  filename : string;
  file : blob
}.

Record tts_request := {
  text : string;
  voice_id : string;
  accent : string;
  speed : float
}.

Record history_entry := {
  h_audio_id : string;
  h_voice_id : string;
  h_voice_name : string;
  h_text : string;
  h_accent : string;
  h_speed : float;
  h_created_at : string
}.

Inductive payload :=
| RootInfo (message version : string)
| UploadOk (voice_id name : string) (description : option string) (message : string)
| VoiceList (voices : list (string * string * option string * string))
| SynthOk (audio_id voice_id text : string) (file_path : path) (message : string)
| FileResponse (file_path : path) (media_type filename : string)
| HistoryList (records : list history_entry).

(** The status code the client sees: an [HTTPException] carries its own,
    any other exception leaving a handler is a 500. *)
Definition status {A} (r : result A) : Z :=
  match r with
  | Ok _ => 200
  | Raise (HTTPException c _) => c
  | Raise _ => 500
  end.

(** [Path(filename).suffix]: the part of the final component from its last
    dot on, when that dot is neither its first nor its last character. *)
Fixpoint components (s acc : string) : list string :=
  match s with
  | EmptyString => [acc]
  | String c s' =>
      if Ascii.eqb c "/" then acc :: components s' ""
      else components s' (acc +:+ String c "")
  end.

Definition name_of (s : string) : string :=
  default "" (last (filter (fun c => c <> "" /\ c <> ".") (components s ""))).

Fixpoint rfind_dot (s : string) (i : nat) : option nat :=
  match s with
  | EmptyString => None
  | String c s' =>
      match rfind_dot s' (S i) with
      | Some j => Some j
      | None => if Ascii.eqb c "." then Some i else None
      end
  end.

Definition suffix (s : string) : string :=
  let name := name_of s in
  match rfind_dot name 0 with
  | Some i =>
      if (0 <? i)%nat && (i <? String.length name - 1)%nat
      then substring i (String.length name - i) name
      else ""
  | None => ""
  end.

(** *** Handlers *)

(** [torch.save(obj, p)]: a failing save may leave a partial file. *)
Definition torch_save_to (E : env) (obj : blob) (p : path) : M unit :=
  run call (TorchSave p);
  match torch_save E obj with
  | Saved data => write_file p data
  | SaveFailed partial e =>
      run match partial with
          | Some d => try_except (write_file p d) (fun _ => ret tt)
          | None => ret tt
          end;
      raise e
  end.

(** [torch.load(p, map_location=device)]. *)
Definition torch_load_from (E : env) (p : path) : M blob :=
  run call (TorchLoad p);
  do data <- read_file p;
  lift (torch_load E data).

(** The local names of [upload_voice]. *)
Definition file_extension (f : upload_file) : string :=
  if String.eqb (suffix (filename f)) "" then ".wav" else suffix (filename f).

Definition voice_file_path (E : env) (f : upload_file) : path :=
  [VOICES_DIR; uuid4 E +:+ file_extension f].

Definition se_file_path (E : env) : path :=
  [VOICES_DIR; uuid4 E +:+ ".pth"].

Definition new_voice_row (E : env) (f : upload_file) (name : string)
    (description : option string) : voice_row :=
  {| vm_id := uuid4 E; vm_name := name; vm_description := description;
     vm_file_path := voice_file_path E f; vm_se_file_path := se_file_path E;
     vm_created_at := now_isoformat E |}.

(** The body of the [try] block of [upload_voice]. *)
Definition upload_processing (E : env) (f : upload_file) (name : string)
    (description : option string) : M payload :=
  run call (GetSE (voice_file_path E f));
  do sample <- read_file (voice_file_path E f);
  do reference_speaker <- lift (get_se E sample);
  run torch_save_to E reference_speaker (se_file_path E);
  run db_connect E;
  run insert_voice_model E (new_voice_row E f name description);
  ret (UploadOk (uuid4 E) name description
         "Voice uploaded and processed successfully").

(** Its [except Exception as e] clause. *)
Definition upload_cleanup (E : env) (f : upload_file) (e : exn) : M payload :=
  do b1 <- os_path_exists (voice_file_path E f);
  run when b1 (os_remove (voice_file_path E f));
  do b2 <- os_path_exists (se_file_path E);
  run when b2 (os_remove (se_file_path E));
  raise (HTTPException 500 ("Voice processing failed: " +:+ str_exn e)).

Definition upload_voice (E : env) (f : upload_file) (name : string)
    (description : option string) : M payload :=
  if negb (String.prefix "audio/" (content_type f))
  then raise (HTTPException 400 "File must be an audio file")
  else
    run write_file (voice_file_path E f) (file f);
    try_except (upload_processing E f name description) (upload_cleanup E f).

Definition list_voices (E : env) : M payload :=
  run db_connect E;
  fun w =>
    (Ok (VoiceList
           (map (fun r => (vm_id r, vm_name r, vm_description r, vm_created_at r))
                (voice_models w))), w).

Section Synthesis.

Variable CHECKPOINT_DIR : path.

Definition v2_env2_cfg : path := CHECKPOINT_DIR ++ ["base_speakers"; "EN_V2"; "config.json"].
Definition v2_env2_ckpt : path := CHECKPOINT_DIR ++ ["base_speakers"; "EN_V2"; "checkpoint.pth"].

(** The call [ensure_base_checkpoints_v1()] made from a handler. *)
Definition call_ensure_base_checkpoints_v1 (E : env) : M path :=
  fun w =>
    let '(r, f') := ensure_base_checkpoints_v1 (download E) (fs w) in
    (r, set_fs f' w).

(** The choice of [(base_cfg, base_ckpt)]: V2 EN_V2 when present, else V1 EN. *)
Definition select_base (E : env) : M (path * path) :=
  do f <- get_fs;
  if path_exists f v2_env2_cfg && path_exists f v2_env2_ckpt
  then ret (v2_env2_cfg, v2_env2_ckpt)
  else
    do v1_base_dir <- call_ensure_base_checkpoints_v1 E;
    ret (v1_base_dir ++ ["base_speakers"; "EN"; "config.json"],
         v1_base_dir ++ ["base_speakers"; "EN"; "checkpoint.pth"]).

Definition ses_file (accent : string) : string :=
  default "en-newest.pth" (ACCENT_TO_SES_FILE !! accent).

Definition source_se_path (accent : string) : path :=
  CHECKPOINT_DIR ++ ["base_speakers"; "ses"; ses_file accent].

Definition speaker_key (m : tts_model) : string :=
  let speakers := match speakers m with Some l => l | None => [] end in
  if existsb (String.eqb "EN") speakers then "EN"
  else match speakers with s :: _ => s | [] => "EN" end.

Definition synthesize_speech (E : env) (request : tts_request) : M payload :=
  run db_connect E;
  do result <- select_se_file_path (voice_id request);
  match result with
  | None => raise (HTTPException 404 "Voice model not found")
  | Some se_file_path =>
      try_except
        (do target_se <- torch_load_from E se_file_path;
         let output_id := uuid4 E in
         let output_path := [AUDIO_DIR; output_id +:+ ".wav"] in
         do base <- select_base E;
         run call (BaseSpeakerTTS (fst base));
         do cfg <- read_file (fst base);
         do model <- lift (base_speaker_tts E cfg);
         run call (LoadCkpt (snd base));
         do ckpt <- read_file (snd base);
         run lift (load_ckpt E ckpt);
         do source_se <- torch_load_from E (source_se_path (accent request));
         run call (TTS (text request) (speaker_key model) "English" (speed request));
         do wave <- lift (tts E (text request) (speaker_key model) (speed request));
         run call (Convert output_path "@MyShell");
         do audio <- lift (convert E wave source_se target_se "@MyShell");
         run write_file output_path audio;
         run insert_generated_audio E
               {| ga_id := output_id; ga_voice_id := voice_id request;
                  ga_text := text request; ga_file_path := output_path;
                  ga_accent := accent request; ga_speed := speed request;
                  ga_created_at := now_isoformat E |};
         ret (SynthOk output_id (voice_id request) (text request) output_path
                "Speech synthesized successfully"))
        (fun e =>
           raise (HTTPException 500 ("Speech synthesis failed: " +:+ str_exn e)))
  end.

End Synthesis.

(** [SELECT file_path FROM generated_audio WHERE id = ?] and [fetchone]. *)
Definition select_audio_file_path (audio_id : string) : M (option path) :=
  fun w => (Ok (option_map ga_file_path
                  (find (fun r => String.eqb (ga_id r) audio_id) (generated_audio w))), w).

Definition get_audio (E : env) (audio_id : string) : M payload :=
  run db_connect E;
  do result <- select_audio_file_path audio_id;
  do f <- get_fs;
  match result with
  | Some p =>
      if path_exists f p
      then ret (FileResponse p "audio/wav" (audio_id +:+ ".wav"))
      else raise (HTTPException 404 "Audio file not found")
  | None => raise (HTTPException 404 "Audio file not found")
  end.

(** [generated_audio ga JOIN voice_models vm ON ga.voice_id = vm.id]. *)
Definition join_history (gas : list audio_row) (vms : list voice_row) : list history_entry :=
  flat_map
    (fun ga =>
       map (fun vm =>
              {| h_audio_id := ga_id ga; h_voice_id := ga_voice_id ga;
                 h_voice_name := vm_name vm; h_text := ga_text ga;
                 h_accent := ga_accent ga; h_speed := ga_speed ga;
                 h_created_at := ga_created_at ga |})
           (filter (fun vm => ga_voice_id ga = vm_id vm) vms))
    gas.

(** [ORDER BY ga.created_at DESC]; rows with equal keys keep their order. *)
Fixpoint insert_desc (e : history_entry) (l : list history_entry) : list history_entry :=
  match l with
  | [] => [e]
  | x :: l' =>
      if String.leb (h_created_at x) (h_created_at e) then e :: l
      else x :: insert_desc e l'
  end.

Definition order_by_created_at_desc (l : list history_entry) : list history_entry :=
  foldr insert_desc [] l.

Definition get_generation_history (E : env) : M payload :=
  run db_connect E;
  fun w =>
    (Ok (HistoryList
           (order_by_created_at_desc (join_history (generated_audio w) (voice_models w)))),
     w).

Definition root : M payload := ret (RootInfo "OpenVoice V2 API Server" "2.0.0").

(** *** The service as a transition system *)

Inductive request :=
| GetRoot
| PostUploadVoice (f : upload_file) (name : string) (description : option string)
| GetVoices
| PostSynthesize (r : tts_request)
| GetAudio (audio_id : string)
| GetHistory.

Definition handle (CHECKPOINT_DIR : path) (E : env) (r : request) : M payload :=
  match r with
  | GetRoot => root
  | PostUploadVoice f name description => upload_voice E f name description
  | GetVoices => list_voices E
  | PostSynthesize q => synthesize_speech CHECKPOINT_DIR E q
  | GetAudio audio_id => get_audio E audio_id
  | GetHistory => get_generation_history E
  end.

(** The state after serving a sequence of requests, one after the other. *)
Fixpoint serve (CHECKPOINT_DIR : path) (rs : list (env * request)) (w : world) : world :=
  match rs with
  | [] => w
  | (E, r) :: rs' => serve CHECKPOINT_DIR rs' (snd (handle CHECKPOINT_DIR E r w))
  end.

(** The state [init_database] leaves on a fresh database file. *)
Definition fresh (f : node) : world :=
  {| fs := f; voice_models := []; generated_audio := []; calls := [] |}.

End Server.

(** ** Sample inputs *)

Module Samples.
Import FS Bootstrap Server.

(** A working tree left by an interrupted installation: the converter
    directory is there with its configuration only. *)
Definition partial_tree : node :=
  Dir [("checkpoints_v2", Dir [("converter", Dir [("config.json", File "{}")])])].

Definition release_archive : list (string * node) :=
  [("checkpoints_v2",
    Dir [("converter",
          Dir [("config.json", File "{}"); ("checkpoint.pth", File "weights")]);
         ("base_speakers",
          Dir [("ses", Dir [("en-newest.pth", File "se")])])])].

(** The same archive, already in place. *)
Definition complete_tree : node := Dir release_archive.

Definition unrelated_archive : list (string * node) :=
  [("docs", Dir [("converter", Dir [("config.json", File "{}")])]);
   ("README.md", File "OpenVoice")].

(** The V1 release, as the fallback download yields it. *)
Definition v1_archive : list (string * node) :=
  [("checkpoints",
    Dir [("base_speakers",
          Dir [("EN",
                Dir [("config.json", File "{v1}"); ("checkpoint.pth", File "v1")])])])].

(** The collaborators of a request in which every model call succeeds. *)
Definition quiet_env : env :=
  {| uuid4 := "7c9e6679-7425-40de-944b-e07fc1f90ae7";
     now_isoformat := "2024-05-01T12:00:00";
     download := Archive v1_archive;
     db_ok := true;
     get_se := fun sample => Ok ("se:" +:+ sample);
     torch_save := fun obj => Saved obj;
     torch_load := fun data => Ok data;
     base_speaker_tts := fun _ => Ok {| speakers := Some ["EN"] |};
     load_ckpt := fun _ => Ok tt;
     tts := fun text _ _ => Ok ("wav:" +:+ text);
     convert := fun wave _ _ _ => Ok wave |}.

(** The same request with a failing embedding extraction. *)
Definition failing_env : env :=
  {| uuid4 := uuid4 quiet_env;
     now_isoformat := now_isoformat quiet_env;
     download := FetchError;
     db_ok := true;
     get_se := fun _ => Raise (ModelError "audio too short");
     torch_save := torch_save quiet_env;
     torch_load := torch_load quiet_env;
     base_speaker_tts := base_speaker_tts quiet_env;
     load_ckpt := load_ckpt quiet_env;
     tts := tts quiet_env;
     convert := convert quiet_env |}.

(** The working tree of a running server with the V2 release in place. *)
Definition served_tree : node :=
  Dir (("voices", Dir []) :: ("audio_files", Dir []) :: release_archive).

Definition wav_upload : upload_file :=
  {| content_type := "audio/wav"; filename := "hello.wav"; file := "RIFF" |}.

Definition text_upload : upload_file :=
  {| content_type := "text/plain"; filename := "notes.txt"; file := "hello" |}.

(** A request for a voice nobody uploaded, and one for the sample voice
    with an accent code outside the table. *)
Definition unknown_voice_request : tts_request :=
  {| text := "Hello"; voice_id := "no-such-voice"; accent := "en-us";
     speed := PrimFloat.one |}.

Definition sample_request : tts_request :=
  {| text := "Hello"; voice_id := uuid4 quiet_env; accent := "en-scottish";
     speed := PrimFloat.one |}.

(** The collaborators of a later request: another identifier and time. *)
Definition later_env : env :=
  {| uuid4 := "1b4e28ba-2fa1-41d2-883f-0016d3cca427";
     now_isoformat := "2024-05-01T12:05:00";
     download := download quiet_env;
     db_ok := true;
     get_se := get_se quiet_env;
     torch_save := torch_save quiet_env;
     torch_load := torch_load quiet_env;
     base_speaker_tts := base_speaker_tts quiet_env;
     load_ckpt := load_ckpt quiet_env;
     tts := tts quiet_env;
     convert := convert quiet_env |}.

Definition french_request : tts_request :=
  {| text := "Bonjour"; voice_id := uuid4 quiet_env; accent := "fr";
     speed := PrimFloat.one |}.

(** The working tree with every accent embedding of the V2 release. *)
Definition accent_tree : node :=
  Dir [("voices", Dir [("7c9e6679-7425-40de-944b-e07fc1f90ae7.pth", File "se:RIFF")]);
       ("audio_files", Dir []);
       ("checkpoints_v2",
        Dir [("base_speakers",
              Dir [("EN_V2",
                    Dir [("config.json", File "{v2}"); ("checkpoint.pth", File "v2")]);
                   ("ses",
                    Dir [("en-newest.pth", File "se-newest"); ("fr.pth", File "se-fr")])])])].

(** A state on that tree, with the sample voice registered. *)
Definition accent_world : world :=
  {| fs := accent_tree;
     voice_models := [new_voice_row quiet_env wav_upload "Ann" None];
     generated_audio := [];
     calls := [] |}.

(** The state after the sample upload. *)
Definition uploaded : world :=
  snd (upload_voice quiet_env wav_upload "Ann" None (fresh served_tree)).

End Samples.

Import FS Bootstrap Server Samples.

(** ** Vocabulary of the statements *)

(** The two tables of a state. *)
Definition db (w : world) : list voice_row * list audio_row :=
  (voice_models w, generated_audio w).

(** A computation that leaves both tables as they are, on every outcome. *)
Definition keeps {A} (m : M A) : Prop :=
  forall w, db (snd (m w)) = db w.

(** A computation whose effect on the tables is within [R], on every
    outcome. *)
Definition changes {A} (R : relation (list voice_row * list audio_row)) (m : M A) : Prop :=
  forall w, R (db w) (db (snd (m w))).

(** At most one row is appended to [voice_models]. *)
Definition adds_voice (d d' : list voice_row * list audio_row) : Prop :=
  snd d' = snd d /\ (fst d' = fst d \/ exists row, fst d' = fst d ++ [row]).

(** At most one row is appended to [generated_audio], for voice [id]. *)
Definition adds_audio (id : string) (d d' : list voice_row * list audio_row) : Prop :=
  fst d' = fst d /\
  (snd d' = snd d \/ exists row, snd d' = snd d ++ [row] /\ ga_voice_id row = id).

(** Every generated audio row names the id of a voice row. *)
Definition referential (w : world) : Prop :=
  forall row, In row (generated_audio w) ->
    exists v, In v (voice_models w) /\ vm_id v = ga_voice_id row.

(** The base variant the specification asks for, on a working tree [f]:
    V2 EN_V2 when its two files exist, V1 EN otherwise. *)
Definition selected_base (CHECKPOINT_DIR : path) (f : node) : path * path :=
  if path_exists f (CHECKPOINT_DIR ++ ["base_speakers"; "EN_V2"; "config.json"])
     && path_exists f (CHECKPOINT_DIR ++ ["base_speakers"; "EN_V2"; "checkpoint.pth"])
  then (CHECKPOINT_DIR ++ ["base_speakers"; "EN_V2"; "config.json"],
        CHECKPOINT_DIR ++ ["base_speakers"; "EN_V2"; "checkpoint.pth"])
  else (["checkpoints"; "base_speakers"; "EN"; "config.json"],
        ["checkpoints"; "base_speakers"; "EN"; "checkpoint.pth"]).

(** A call into the base TTS model that uses the paths [sel], or any other
    call. *)
Definition base_call_of (sel : path * path) (ev : event) : Prop :=
  match ev with
  | BaseSpeakerTTS p => p = fst sel
  | LoadCkpt p => p = snd sel
  | _ => True
  end.

(** A call of a synthesize request that is as the specification has it:
    the base TTS model gets the paths [sel], and an embedding is loaded
    from the voice's file [se] or from the accent's file [src]. *)
Definition synth_call_of (sel : path * path) (se src : path) (ev : event) : Prop :=
  match ev with
  | BaseSpeakerTTS p => p = fst sel
  | LoadCkpt p => p = snd sel
  | TorchLoad p => p = se \/ p = src
  | _ => True
  end.

(** A computation all of whose new calls satisfy [phi], on every outcome. *)
Definition emits {A} (phi : event -> Prop) (m : M A) : Prop :=
  forall w, exists new, calls (snd (m w)) = calls w ++ new /\ Forall phi new.

(** The request [q] with another accent code. *)
Definition with_accent (a : string) (q : tts_request) : tts_request :=
  {| text := text q; voice_id := voice_id q; accent := a; speed := speed q |}.

(** A generated-audio row without its accent column. *)
Definition forget_accent (r : audio_row) : audio_row :=
  {| ga_id := ga_id r; ga_voice_id := ga_voice_id r; ga_text := ga_text r;
     ga_file_path := ga_file_path r; ga_accent := ""; ga_speed := ga_speed r;
     ga_created_at := ga_created_at r |}.

(** Two outcomes that agree on everything but the accent column. *)
Definition same_but_accent {A} (o1 o2 : result A * world) : Prop :=
  fst o1 = fst o2 /\
  fs (snd o1) = fs (snd o2) /\
  voice_models (snd o1) = voice_models (snd o2) /\
  calls (snd o1) = calls (snd o2) /\
  map forget_accent (generated_audio (snd o1)) =
  map forget_accent (generated_audio (snd o2)).

(** A computation that leaves both tables as they are whenever it raises. *)
Definition fails_clean {A} (m : M A) : Prop :=
  forall w e w', m w = (Raise e, w') -> db w' = db w.

(** The primary keys of both tables are pairwise distinct. *)
Definition keyed (w : world) : Prop :=
  NoDup (map vm_id (voice_models w)) /\ NoDup (map ga_id (generated_audio w)).

(** [a] may come before [b] in the history: [b] is not newer than [a]. *)
Definition not_older (a b : history_entry) : Prop :=
  String.leb (h_created_at b) (h_created_at a) = true.

(** The history record of a generated-audio row and its voice row. *)
Definition history_of (ga : audio_row) (vm : voice_row) : history_entry :=
  {| h_audio_id := ga_id ga; h_voice_id := ga_voice_id ga;
     h_voice_name := vm_name vm; h_text := ga_text ga;
     h_accent := ga_accent ga; h_speed := ga_speed ga;
     h_created_at := ga_created_at ga |}.

(** The row a successful synthesize request inserts. *)
Definition new_audio_row (E : env) (q : tts_request) : audio_row :=
  {| ga_id := uuid4 E; ga_voice_id := voice_id q; ga_text := text q;
     ga_file_path := [AUDIO_DIR; uuid4 E +:+ ".wav"];
     ga_accent := accent q; ga_speed := speed q;
     ga_created_at := now_isoformat E |}.

(** Two paths that part ways: after a common prefix, [p] goes on with one
    name and [p'] with another.  Neither is at or below the other. *)
Definition apart (p p' : path) : Prop :=
  exists d a r b q, p = d ++ a :: r /\ p' = d ++ b :: q /\ a <> b.

(** A computation that leaves what is at [p] as it is, on every outcome. *)
Definition keeps_path {A} (p : path) (m : M A) : Prop :=
  forall w, resolve (fs (snd (m w))) p = resolve (fs w) p.

(** No directory of the tree lists a name twice, as on a file system. *)
Fixpoint nodupb (l : list string) : bool :=
  match l with
  | [] => true
  | x :: l' => negb (existsb (String.eqb x) l') && nodupb l'
  end.

Fixpoint distinct_names (n : node) : bool :=
  match n with
  | File _ => true
  | Dir es =>
      nodupb (map fst es)
      && (fix below (l : list (string * node)) : bool :=
            match l with
            | [] => true
            | (_, n') :: l' => distinct_names n' && below l'
            end) es
  end.

(** The character [c] occurs in [s]. *)
Fixpoint occurs (c : ascii) (s : string) : bool :=
  match s with
  | EmptyString => false
  | String c' s' => Ascii.eqb c' c || occurs c s'
  end.

(** The accent codes of the specification. *)
Definition accent_codes : list string :=
  ["en-au"; "en-br"; "en-default"; "en-india"; "en-newest"; "en-us";
   "es"; "fr"; "jp"; "kr"; "zh"].

(** * Properties *)

(** ** Directory entries and path resolution *)

Section Entries.
Context {A : Type}.
Implicit Types (k : string) (v : A) (l : list (string * A)).

Lemma assoc_set_same k v l : assoc k l = Some v -> assoc_set k v l = l.
Proof.
  induction l as [|[k' v'] l IH]; simpl; [discriminate|].
  destruct (String.eqb_spec k k') as [->|Hne].
  - intros [= ->]. reflexivity.
  - intros H. rewrite (IH H). reflexivity.
Qed.

Lemma assoc_assoc_set k v l : assoc k (assoc_set k v l) = Some v.
Proof.
  induction l as [|[k' v'] l IH]; simpl.
  - rewrite String.eqb_refl. reflexivity.
  - destruct (String.eqb_spec k k') as [->|Hne]; simpl.
    + rewrite String.eqb_refl. reflexivity.
    + destruct (String.eqb_spec k k'); [contradiction|exact IH].
Qed.

Lemma assoc_assoc_set_ne k k' v l : k <> k' -> assoc k' (assoc_set k v l) = assoc k' l.
Proof.
  intros Hne. induction l as [|[k0 v0] l IH]; simpl.
  - destruct (String.eqb_spec k' k); [congruence|reflexivity].
  - destruct (String.eqb_spec k k0) as [->|Hk]; simpl.
    + destruct (String.eqb_spec k' k0); [congruence|reflexivity].
    + destruct (String.eqb_spec k' k0); [reflexivity|exact IH].
Qed.

Lemma assoc_assoc_del_ne k k' l : k <> k' -> assoc k' (assoc_del k l) = assoc k' l.
Proof.
  intros Hne. induction l as [|[k0 v0] l IH]; simpl; [reflexivity|].
  destruct (String.eqb_spec k k0) as [->|Hk]; simpl.
  - destruct (String.eqb_spec k' k0); [congruence|exact IH].
  - destruct (String.eqb_spec k' k0); [reflexivity|exact IH].
Qed.

Lemma assoc_assoc_del k l : assoc k (assoc_del k l) = None.
Proof.
  induction l as [|[k0 v0] l IH]; simpl; [reflexivity|].
  destruct (String.eqb_spec k k0) as [->|Hk]; simpl; [exact IH|].
  destruct (String.eqb_spec k k0); [contradiction|exact IH].
Qed.

End Entries.

Lemma resolve_app (n : node) (p q : path) :
  resolve n (p ++ q) =
  match resolve n p with Some n' => resolve n' q | None => None end.
Proof.
  revert n. induction p as [|c p IH]; intros n; simpl; [reflexivity|].
  destruct n as [d|es]; [reflexivity|].
  destruct (assoc c es); [apply IH|reflexivity].
Qed.

(** Whatever has something below it is a directory. *)
Lemma path_exists_below_isdir (n : node) (p : path) (c : string) (q : path) :
  path_exists n (p ++ c :: q) = true -> isdir n p = true.
Proof.
  unfold path_exists, isdir. rewrite resolve_app.
  destruct (resolve n p) as [[d|es]|]; simpl; congruence.
Qed.

Lemma resolve_empty_dir (p : path) :
  default (Dir []) (resolve (Dir []) p) = Dir [].
Proof. destruct p; reflexivity. Qed.

(** [os.makedirs(d, exist_ok=True)] leaves an existing directory [d] as it
    is and makes a missing one empty. *)
Lemma makedirs_resolve (d : path) :
  forall fs fs1, makedirs fs d = Some fs1 ->
    resolve fs1 d = Some (default (Dir []) (resolve fs d)).
Proof.
  induction d as [|c d IH]; intros fs fs1.
  - destruct fs; simpl; [discriminate|]. intros [= <-]. reflexivity.
  - destruct fs as [x|es]; simpl; [discriminate|].
    destruct (makedirs _ d) as [n''|] eqn:Hm; [|discriminate].
    intros [= <-]. simpl. rewrite assoc_assoc_set.
    rewrite (IH _ _ Hm). f_equal.
    destruct (assoc c es); [reflexivity|]. apply resolve_empty_dir.
Qed.

Lemma makedirs_existing (d : path) :
  forall fs, isdir fs d = true -> makedirs fs d = Some fs.
Proof.
  unfold isdir. induction d as [|c d IH]; intros fs.
  - destruct fs; simpl; congruence.
  - destruct fs as [x|es]; simpl; [discriminate|].
    destruct (assoc c es) as [n'|] eqn:Ha; [|discriminate].
    intros H. rewrite (IH _ H). rewrite (assoc_set_same _ _ _ Ha). reflexivity.
Qed.

(** ** The walk *)

Lemma walk_complete (p : path) :
  forall n root, isdir n p = true -> In (root ++ p) (walk n root).
Proof.
  unfold isdir. induction p as [|c p IH]; intros n root.
  - destruct n; simpl; [discriminate|]. intros _. left. symmetry. apply app_nil_r.
  - destruct n as [x|es]; simpl; [discriminate|].
    intros H. right.
    induction es as [|[c' n'] es IHes]; simpl in *; [discriminate|].
    apply in_or_app.
    destruct (String.eqb_spec c c') as [->|Hne].
    + left. replace (root ++ c' :: p) with ((root ++ [c']) ++ p)
        by (rewrite <- app_assoc; reflexivity).
      apply IH. exact H.
    + right. apply IHes. exact H.
Qed.

Lemma find_first {A} (f : A -> bool) (l : list A) (x : A) :
  find f l = Some x ->
  exists before after,
    l = before ++ x :: after /\ f x = true /\
    Forall (fun y => f y = false) before.
Proof.
  induction l as [|a l IH]; simpl; [discriminate|].
  destruct (f a) eqn:Hfa.
  - intros [= <-]. exists [], l. repeat split; [exact Hfa|constructor].
  - intros H. destruct (IH H) as (b & t & -> & Hx & Hb).
    exists (a :: b), t. repeat split; [exact Hx|constructor; assumption].
Qed.

Lemma candidate_root_none (tmp : node) :
  candidate_root has_markers tmp = None <->
  (forall p, isdir tmp p = true -> has_markers tmp p = false).
Proof.
  unfold candidate_root. split.
  - intros H p Hp.
    apply (find_none _ _ H). apply (walk_complete p tmp []). exact Hp.
  - intros H. destruct (find _ _) as [r|] eqn:Hf; [|reflexivity].
    apply find_some in Hf. destruct Hf as [_ Hr].
    assert (isdir tmp r = true) as Hd.
    { unfold has_markers in Hr. apply andb_prop in Hr. destruct Hr as [Hr _].
      apply (path_exists_below_isdir _ _ _ _ Hr). }
    rewrite (H r Hd) in Hr. discriminate.
Qed.

(** ** The model on small inputs *)

Example walk_release_archive :
  walk (Dir release_archive) [] =
  [ []; ["checkpoints_v2"]; ["checkpoints_v2"; "converter"];
    ["checkpoints_v2"; "base_speakers"]; ["checkpoints_v2"; "base_speakers"; "ses"] ].
Proof. reflexivity. Qed.

Example makedirs_through_file : makedirs (Dir [("a", File "x")]) ["a"; "b"] = None.
Proof. reflexivity. Qed.

Example makedirs_nested :
  makedirs (Dir [("a", Dir [])]) ["a"; "b"] = Some (Dir [("a", Dir [("b", Dir [])])]).
Proof. reflexivity. Qed.

Example suffix_examples :
  suffix "hello.wav" = ".wav" /\ suffix "a/b.tar.gz" = ".gz" /\
  suffix ".bashrc" = "" /\ suffix "recording" = "" /\ suffix "x/y.mp3/" = ".mp3".
Proof. repeat split. Qed.

(** On an empty working tree the release archive is installed whole. *)
Example ensure_checkpoints_fresh_install :
  ensure_checkpoints ["checkpoints_v2"] (Archive release_archive) (Dir []) =
  (Ok tt, Dir release_archive).
Proof. reflexivity. Qed.

(** The fallback download installs the V1 base model next to the V2 one. *)
Example ensure_base_checkpoints_v1_install :
  fst (ensure_base_checkpoints_v1 (Archive v1_archive) served_tree) = Ok ["checkpoints"] /\
  forallb (path_exists (snd (ensure_base_checkpoints_v1 (Archive v1_archive) served_tree)))
    req_files = true.
Proof. split; reflexivity. Qed.

(** ** Bootstrap *)

(** C1, at a concrete input: the working tree already has
    [checkpoints_v2/converter] with [config.json] only, and the archive is
    complete. [ensure_checkpoints] returns normally, the existing
    [converter] directory is skipped by the merge, and
    [checkpoints_v2/converter/checkpoint.pth] is still missing. *)
Theorem ensure_checkpoints_skips_existing_converter :
  let out := ensure_checkpoints ["checkpoints_v2"] (Archive release_archive) partial_tree in
  fst out = Ok tt /\
  path_exists (snd out) ["checkpoints_v2"; "converter"; "config.json"] = true /\
  path_exists (snd out) ["checkpoints_v2"; "converter"; "checkpoint.pth"] = false /\
  path_exists (snd out) ["checkpoints_v2"; "base_speakers"; "ses"; "en-newest.pth"] = true.
Proof. vm_compute. repeat split. Qed.

(** C2: when the three required paths exist, [ensure_checkpoints] returns
    at once with the working tree as it was, whatever the download would
    have yielded. *)
Theorem ensure_checkpoints_present_noop (checkpoint_dir : path) (dl : fetched) (fs : node) :
  path_exists fs (checkpoint_dir ++ ["converter"; "config.json"]) = true ->
  path_exists fs (checkpoint_dir ++ ["converter"; "checkpoint.pth"]) = true ->
  path_exists fs (checkpoint_dir ++ ["base_speakers"; "ses"; "en-newest.pth"]) = true ->
  ensure_checkpoints checkpoint_dir dl fs = (Ok tt, fs).
Proof.
  intros H1 H2 H3. unfold ensure_checkpoints, required_paths. simpl.
  rewrite H1, H2, H3. reflexivity.
Qed.

Lemma ensure_checkpoints_present_noop_witness :
  path_exists complete_tree (["checkpoints_v2"] ++ ["converter"; "config.json"]) = true /\
  path_exists complete_tree (["checkpoints_v2"] ++ ["converter"; "checkpoint.pth"]) = true /\
  path_exists complete_tree
    (["checkpoints_v2"] ++ ["base_speakers"; "ses"; "en-newest.pth"]) = true /\
  ensure_checkpoints ["checkpoints_v2"] FetchError complete_tree = (Ok tt, complete_tree).
Proof.
  repeat (split; [reflexivity|]).
  apply (ensure_checkpoints_present_noop ["checkpoints_v2"] FetchError complete_tree);
    reflexivity.
Defined.

(** ** Writing and removing files *)

Lemma put_resolve (p : path) :
  forall f x f', p <> [] -> put f p x = Some f' -> resolve f' p = Some x.
Proof.
  induction p as [|c p IH]; intros f x f' Hne; [contradiction|].
  destruct f as [d|es]; simpl; [discriminate|].
  destruct p as [|c' p].
  - intros [= <-]. simpl. rewrite assoc_assoc_set. reflexivity.
  - destruct (assoc c es) as [n'|]; [|discriminate].
    destruct (put n' (c' :: p) x) as [n''|] eqn:Hp; [|discriminate].
    intros [= <-]. cbn [resolve]. rewrite assoc_assoc_set.
    apply (IH _ _ _ ltac:(discriminate) Hp).
Qed.

Lemma remove_resolve (p : path) :
  forall f f', remove f p = Some f' -> resolve f' p = None.
Proof.
  induction p as [|c p IH]; intros f f'; [discriminate|].
  destruct f as [d|es]; simpl; [discriminate|].
  destruct (assoc c es) as [n'|]; [|discriminate].
  destruct p as [|c' p].
  - intros [= <-]. simpl. rewrite assoc_assoc_del. reflexivity.
  - destruct (remove n' (c' :: p)) as [n''|] eqn:Hr; [|discriminate].
    intros [= <-]. cbn [resolve]. rewrite assoc_assoc_set.
    apply (IH _ _ Hr).
Qed.

Lemma remove_defined (p : path) :
  forall f n, p <> [] -> resolve f p = Some n -> exists f', remove f p = Some f'.
Proof.
  induction p as [|c p IH]; intros f n Hne; [contradiction|].
  destruct f as [d|es]; simpl; [discriminate|].
  destruct (assoc c es) as [n'|]; [|discriminate].
  destruct p as [|c' p]; [eauto|].
  intros H. destruct (IH n' n ltac:(discriminate) H) as [n'' ->]. eauto.
Qed.

Lemma put_cons (c : string) (p : path) (es : list (string * node)) (x : node) :
  p <> [] ->
  put (Dir es) (c :: p) x =
  match assoc c es with
  | Some n' =>
      match put n' p x with
      | Some n'' => Some (Dir (assoc_set c n'' es))
      | None => None
      end
  | None => None
  end.
Proof. destruct p; [contradiction|reflexivity]. Qed.

Lemma remove_cons (c : string) (p : path) (es : list (string * node)) :
  p <> [] ->
  remove (Dir es) (c :: p) =
  match assoc c es with
  | Some n' =>
      match remove n' p with
      | Some n'' => Some (Dir (assoc_set c n'' es))
      | None => None
      end
  | None => None
  end.
Proof.
  destruct p; [contradiction|]. simpl. destruct (assoc c es); reflexivity.
Qed.

Lemma snoc_not_nil {A} (d : list A) (a : A) : d ++ [a] <> [].
Proof. destruct d; discriminate. Qed.

(** Two names of one directory do not interfere. *)
Lemma put_resolve_sibling (d : path) (a b : string) :
  forall f x f', a <> b -> put f (d ++ [a]) x = Some f' ->
    resolve f' (d ++ [b]) = resolve f (d ++ [b]).
Proof.
  induction d as [|c d IH]; intros f x f' Hab.
  - destruct f as [y|es]; simpl; [discriminate|].
    intros [= <-]. simpl. rewrite (assoc_assoc_set_ne _ _ _ _ Hab). reflexivity.
  - destruct f as [y|es]; [discriminate|].
    rewrite <- app_comm_cons, (put_cons _ _ _ _ (snoc_not_nil d a)).
    destruct (assoc c es) as [n'|] eqn:Hc; [|discriminate].
    destruct (put n' (d ++ [a]) x) as [n''|] eqn:Hp; [|discriminate].
    intros [= <-]. rewrite <- !app_comm_cons. cbn [resolve].
    rewrite assoc_assoc_set, Hc.
    apply (IH _ _ _ Hab Hp).
Qed.

Lemma remove_resolve_sibling (d : path) (a b : string) :
  forall f f', a <> b -> remove f (d ++ [a]) = Some f' ->
    resolve f' (d ++ [b]) = resolve f (d ++ [b]).
Proof.
  induction d as [|c d IH]; intros f f' Hab.
  - destruct f as [y|es]; simpl; [discriminate|].
    destruct (assoc a es); [|discriminate].
    intros [= <-]. simpl. rewrite (assoc_assoc_del_ne _ _ _ Hab). reflexivity.
  - destruct f as [y|es]; [discriminate|].
    rewrite <- app_comm_cons, (remove_cons _ _ _ (snoc_not_nil d a)).
    destruct (assoc c es) as [n'|] eqn:Hc; [|discriminate].
    destruct (remove n' (d ++ [a])) as [n''|] eqn:Hp; [|discriminate].
    intros [= <-]. rewrite <- !app_comm_cons. cbn [resolve].
    rewrite assoc_assoc_set, Hc.
    apply (IH _ _ Hab Hp).
Qed.

(** ** The primitives of the handlers, as equations *)

Lemma read_file_eq (p : path) (w : world) :
  read_file p w =
  (match resolve (fs w) p with
   | Some (File data) => Ok data
   | _ => Raise (OSError "No such file or directory")
   end, w).
Proof.
  unfold read_file, bind, get_fs.
  destruct (resolve (fs w) p) as [[d|es]|]; reflexivity.
Qed.

Lemma write_file_eq (p : path) (data : blob) (w : world) :
  write_file p data w =
  if isdir (fs w) p then (Raise (OSError "Is a directory"), w)
  else match put (fs w) p (File data) with
       | Some f' => (Ok tt, set_fs f' w)
       | None => (Raise (OSError "No such file or directory"), w)
       end.
Proof.
  unfold write_file, bind, get_fs.
  destruct (isdir (fs w) p); [reflexivity|].
  destruct (put (fs w) p (File data)); reflexivity.
Qed.

Lemma os_remove_eq (p : path) (w : world) :
  os_remove p w =
  if isfile (fs w) p then
    match remove (fs w) p with
    | Some f' => (Ok tt, set_fs f' w)
    | None => (Raise (OSError "No such file or directory"), w)
    end
  else (Raise (OSError "Operation not permitted"), w).
Proof.
  unfold os_remove, bind, get_fs.
  destruct (isfile (fs w) p); [|reflexivity].
  destruct (remove (fs w) p); reflexivity.
Qed.

(** ** Upload *)

(** C10: a file whose content type does not start with [audio/] is
    answered with status 400 and the state is the one before the request:
    no file written, no row inserted. *)
Theorem upload_voice_rejects_non_audio
    (E : env) (f : upload_file) (name : string) (description : option string) (w : world) :
  String.prefix "audio/" (content_type f) = false ->
  upload_voice E f name description w =
    (Raise (HTTPException 400 "File must be an audio file"), w) /\
  status (fst (upload_voice E f name description w)) = 400%Z.
Proof.
  intros H. unfold upload_voice. rewrite H. split; reflexivity.
Qed.

Lemma upload_voice_rejects_non_audio_witness :
  String.prefix "audio/" (content_type text_upload) = false /\
  upload_voice quiet_env text_upload "notes" None (fresh served_tree) =
    (Raise (HTTPException 400 "File must be an audio file"), fresh served_tree).
Proof.
  split; [reflexivity|].
  apply (upload_voice_rejects_non_audio quiet_env text_upload "notes" None
           (fresh served_tree)).
  reflexivity.
Defined.

Lemma isfile_path_exists (f : node) (p : path) :
  isfile f p = true -> path_exists f p = true.
Proof. unfold isfile, path_exists. destruct (resolve f p) as [[?|?]|]; congruence. Qed.

Lemma not_path_exists_isfile (f : node) (p : path) :
  path_exists f p = false -> isfile f p = false.
Proof. unfold isfile, path_exists. destruct (resolve f p) as [[?|?]|]; congruence. Qed.

Lemma isfile_remove_defined (f : node) (p : path) :
  p <> [] -> isfile f p = true -> exists f', remove f p = Some f'.
Proof.
  unfold isfile. intros Hne H.
  destruct (resolve f p) as [n|] eqn:Hres; [|discriminate].
  apply (remove_defined p f n Hne Hres).
Qed.

(** The [except] clause of [upload_voice] on a state that holds the sample:
    both files are gone afterwards, the tables are untouched, and the
    request fails with status 500. *)
Lemma upload_cleanup_spec (E : env) (f : upload_file) (e : exn) (w : world) :
  isfile (fs w) (voice_file_path E f) = true ->
  exists e' w',
    upload_cleanup E f e w = (Raise e', w') /\
    status (Raise e' : result payload) = 500%Z /\
    isfile (fs w') (voice_file_path E f) = false /\
    isfile (fs w') (se_file_path E) = false /\
    voice_models w' = voice_models w /\
    generated_audio w' = generated_audio w.
Proof.
  intros Hv.
  assert (voice_file_path E f = [VOICES_DIR] ++ [uuid4 E +:+ file_extension f]) as Hvp
    by reflexivity.
  assert (se_file_path E = [VOICES_DIR] ++ [uuid4 E +:+ ".pth"]) as Hsp by reflexivity.
  unfold upload_cleanup.
  set (a := uuid4 E +:+ file_extension f) in *.
  set (b := uuid4 E +:+ ".pth") in *.
  generalize dependent (voice_file_path E f). intros vp Hv Hvp.
  generalize dependent (se_file_path E). intros sp Hsp.
  assert (vp <> []) as Hvne by (subst vp; apply snoc_not_nil).
  assert (sp <> []) as Hsne by (subst sp; apply snoc_not_nil).
  destruct (isfile_remove_defined _ _ Hvne Hv) as [f3 Hr].
  assert (isfile f3 vp = false) as Hnv.
  { unfold isfile. rewrite (remove_resolve _ _ _ Hr). reflexivity. }
  unfold os_path_exists, bind, get_fs, ret, when, raise.
  rewrite (isfile_path_exists _ _ Hv), os_remove_eq, Hv, Hr. cbn [fs set_fs].
  destruct (path_exists f3 sp) eqn:Hex.
  - rewrite os_remove_eq. cbn [fs set_fs].
    destruct (isfile f3 sp) eqn:Hfile.
    + assert (b <> a) as Hba.
      { intros Heq. rewrite Hvp, Hsp, Heq in *. congruence. }
      destruct (isfile_remove_defined _ _ Hsne Hfile) as [f4 Hr4]. rewrite Hr4.
      eexists _, _. split; [reflexivity|]. cbn [fs set_fs voice_models generated_audio].
      repeat split.
      * unfold isfile. rewrite Hsp in Hr4. rewrite Hvp.
        rewrite (remove_resolve_sibling _ _ _ _ _ Hba Hr4).
        rewrite <- Hvp, (remove_resolve _ _ _ Hr). reflexivity.
      * unfold isfile. rewrite (remove_resolve _ _ _ Hr4). reflexivity.
    + eexists _, _. split; [reflexivity|]. cbn [fs set_fs voice_models generated_audio].
      repeat split; assumption.
  - eexists _, _. split; [reflexivity|]. cbn [fs set_fs voice_models generated_audio].
    repeat split; [assumption|]. apply not_path_exists_isfile. exact Hex.
Qed.

(** Writing one name of a directory keeps a file under another name of
    that directory, and the tables. *)
Lemma write_file_sibling (d : path) (a b : string) (data : blob) (w : world)
    (r : result unit) (w' : world) :
  isfile (fs w) (d ++ [a]) = true ->
  write_file (d ++ [b]) data w = (r, w') ->
  isfile (fs w') (d ++ [a]) = true /\
  voice_models w' = voice_models w /\
  generated_audio w' = generated_audio w /\
  (r = Ok tt -> path_exists (fs w') (d ++ [b]) = true).
Proof.
  intros Ha. rewrite write_file_eq.
  destruct (isdir (fs w) (d ++ [b])).
  { intros [= <- <-]. repeat split; [assumption|discriminate]. }
  destruct (put (fs w) (d ++ [b]) (File data)) as [f'|] eqn:Hp.
  2:{ intros [= <- <-]. repeat split; [assumption|discriminate]. }
  intros [= <- <-]. cbn [fs set_fs voice_models generated_audio].
  pose proof (put_resolve _ _ _ _ (snoc_not_nil d b) Hp) as Hb.
  repeat split.
  - destruct (String.eqb_spec b a) as [->|Hne].
    + unfold isfile. rewrite Hb. reflexivity.
    + unfold isfile. rewrite (put_resolve_sibling _ _ _ _ _ _ Hne Hp). exact Ha.
  - intros _. unfold path_exists. rewrite Hb. reflexivity.
Qed.

Lemma torch_save_to_sibling (E : env) (d : path) (a b : string) (obj : blob) (w : world)
    (r : result unit) (w' : world) :
  isfile (fs w) (d ++ [a]) = true ->
  torch_save_to E obj (d ++ [b]) w = (r, w') ->
  isfile (fs w') (d ++ [a]) = true /\
  voice_models w' = voice_models w /\
  generated_audio w' = generated_audio w /\
  (r = Ok tt ->
   path_exists (fs w') (d ++ [b]) = true /\ exists data, torch_save E obj = Saved data).
Proof.
  intros Ha. unfold torch_save_to, bind at 1, call.
  destruct (torch_save E obj) as [data|partial e].
  - intros H. eapply write_file_sibling in H; [|exact Ha].
    destruct H as (H1 & H2 & H3 & H4). repeat split; eauto.
  - unfold bind, raise.
    destruct partial as [part|].
    + unfold try_except, ret.
      destruct (write_file (d ++ [b]) part _) as [[[]|e'] w1] eqn:Hw;
        eapply write_file_sibling in Hw; try exact Ha;
        destruct Hw as (H1 & H2 & H3 & H4);
        intros [= <- <-]; repeat split; try assumption; discriminate.
    + unfold ret. intros [= <- <-]. repeat split; try assumption; discriminate.
Qed.

(** The [try] block of [upload_voice] on a state that holds the sample. *)
Lemma upload_processing_spec (E : env) (f : upload_file) (name : string)
    (description : option string) (sample : blob) (w : world)
    (r : result payload) (w' : world) :
  resolve (fs w) (voice_file_path E f) = Some (File sample) ->
  upload_processing E f name description w = (r, w') ->
  isfile (fs w') (voice_file_path E f) = true /\
  generated_audio w' = generated_audio w /\
  match r with
  | Ok p =>
      p = UploadOk (uuid4 E) name description "Voice uploaded and processed successfully" /\
      voice_models w' = voice_models w ++ [new_voice_row E f name description] /\
      path_exists (fs w') (se_file_path E) = true /\
      (exists emb data, get_se E sample = Ok emb /\ torch_save E emb = Saved data) /\
      db_ok E = true /\
      existsb (fun r' => String.eqb (vm_id r') (uuid4 E)) (voice_models w) = false
  | Raise _ => voice_models w' = voice_models w
  end.
Proof.
  intros Hres.
  assert (isfile (fs w) (voice_file_path E f) = true) as Hfile
    by (unfold isfile; rewrite Hres; reflexivity).
  unfold upload_processing.
  change (voice_file_path E f) with ([VOICES_DIR] ++ [uuid4 E +:+ file_extension f]) in *.
  change (se_file_path E) with ([VOICES_DIR] ++ [uuid4 E +:+ ".pth"]).
  unfold bind at 1, call. unfold bind at 1. rewrite read_file_eq. cbn [fs].
  rewrite Hres. unfold bind at 1, lift.
  destruct (get_se E sample) as [emb|e].
  2:{ intros [= <- <-]. repeat split; assumption. }
  unfold bind at 1.
  match goal with
  | |- context [torch_save_to E emb ?p ?w0] =>
      destruct (torch_save_to E emb p w0) as [[[]|e] w1] eqn:Hts;
      eapply torch_save_to_sibling in Hts; try exact Hfile;
      destruct Hts as (H1 & H2 & H3 & H4)
  end.
  2:{ intros [= <- <-]. repeat split; assumption. }
  destruct (H4 eq_refl) as [Hsp [data Hdata]].
  unfold bind at 1, db_connect.
  destruct (db_ok E) eqn:Hdb.
  2:{ unfold raise. intros [= <- <-]. repeat split; assumption. }
  unfold ret at 1. unfold bind, insert_voice_model. rewrite Hdb. cbn [negb vm_id new_voice_row].
  cbn [fs voice_models generated_audio] in H1, H2, H3.
  rewrite H2.
  destruct (existsb _ (voice_models w)) eqn:Hdup.
  { intros [= <- <-]. repeat split; assumption. }
  unfold ret. intros [= <- <-]. cbn [fs voice_models generated_audio].
  repeat split; try assumption. eauto.
Qed.




(** ** What each computation does to the tables *)

Section Keeps.
Context {A B : Type}.

Lemma keeps_ret (a : A) : keeps (ret a).
Proof. intros w. reflexivity. Qed.

Lemma keeps_raise (e : exn) : keeps (@raise A e).
Proof. intros w. reflexivity. Qed.

Lemma keeps_lift (r : result A) : keeps (lift r).
Proof. intros w. reflexivity. Qed.

Lemma keeps_bind (m : M A) (k : A -> M B) :
  keeps m -> (forall a, keeps (k a)) -> keeps (bind m k).
Proof.
  intros Hm Hk w. unfold bind. specialize (Hm w).
  destruct (m w) as [[a|e] w1]; cbn [snd] in *; [|exact Hm].
  rewrite (Hk a w1). exact Hm.
Qed.

Lemma keeps_try_except (body : M A) (handler : exn -> M A) :
  keeps body -> (forall e, keeps (handler e)) -> keeps (try_except body handler).
Proof.
  intros Hm Hk w. unfold try_except. specialize (Hm w).
  destruct (body w) as [[a|e] w1]; cbn [snd] in *; [exact Hm|].
  rewrite (Hk e w1). exact Hm.
Qed.

Lemma changes_bind (R : relation (list voice_row * list audio_row)) (m : M A) (k : A -> M B) :
  keeps m -> (forall a, changes R (k a)) -> (forall d, R d d) -> changes R (bind m k).
Proof.
  intros Hm Hk Hrefl w. unfold bind. specialize (Hm w).
  destruct (m w) as [[a|e] w1]; cbn [snd] in *.
  - rewrite <- Hm. apply Hk.
  - rewrite Hm. apply Hrefl.
Qed.

Lemma changes_try_except (R : relation (list voice_row * list audio_row))
    (body : M A) (handler : exn -> M A) :
  changes R body -> (forall e, keeps (handler e)) -> changes R (try_except body handler).
Proof.
  intros Hm Hk w. unfold try_except. specialize (Hm w).
  destruct (body w) as [[a|e] w1]; cbn [snd] in *; [exact Hm|].
  rewrite (Hk e w1). exact Hm.
Qed.

End Keeps.

Lemma keeps_get_fs : keeps get_fs.
Proof. intros w. reflexivity. Qed.

Lemma keeps_put_fs (f : node) : keeps (put_fs f).
Proof. intros w. reflexivity. Qed.

Lemma keeps_call (ev : event) : keeps (call ev).
Proof. intros w. reflexivity. Qed.

Lemma keeps_when (b : bool) (m : M unit) : keeps m -> keeps (when b m).
Proof. intros H. destruct b; [exact H|apply keeps_ret]. Qed.

Lemma keeps_db_connect (E : env) : keeps (db_connect E).
Proof. unfold db_connect. destruct (db_ok E); [apply keeps_ret|apply keeps_raise]. Qed.

Lemma keeps_select_se_file_path (id : string) : keeps (select_se_file_path id).
Proof. intros w. reflexivity. Qed.

Lemma keeps_select_audio_file_path (id : string) : keeps (select_audio_file_path id).
Proof. intros w. reflexivity. Qed.

Lemma keeps_call_ensure_base_checkpoints_v1 (E : env) :
  keeps (call_ensure_base_checkpoints_v1 E).
Proof.
  intros w. unfold call_ensure_base_checkpoints_v1.
  destruct (ensure_base_checkpoints_v1 (download E) (fs w)). reflexivity.
Qed.

Create HintDb keeps.
#[local] Hint Resolve keeps_ret keeps_raise keeps_lift keeps_get_fs keeps_put_fs keeps_call
  keeps_when keeps_db_connect keeps_select_se_file_path keeps_select_audio_file_path
  keeps_call_ensure_base_checkpoints_v1 : keeps.

(** Walks a computation built from [bind], [try_except] and conditionals. *)
Ltac keeps_step :=
  match goal with
  | |- keeps (bind _ _) => apply keeps_bind; [|intros ?]
  | |- keeps (try_except _ _) => apply keeps_try_except; [|intros ?]
  | |- keeps (match ?x with _ => _ end) => destruct x
  | |- keeps (if ?b then _ else _) => destruct b
  | |- keeps _ => solve [auto with keeps]
  end.
Ltac keeps_auto := repeat keeps_step.

Lemma keeps_read_file (p : path) : keeps (read_file p).
Proof. unfold read_file. keeps_auto. Qed.

Lemma keeps_write_file (p : path) (data : blob) : keeps (write_file p data).
Proof. unfold write_file. keeps_auto. Qed.

Lemma keeps_os_remove (p : path) : keeps (os_remove p).
Proof. unfold os_remove. keeps_auto. Qed.

Lemma keeps_os_path_exists (p : path) : keeps (os_path_exists p).
Proof. unfold os_path_exists. keeps_auto. Qed.

#[local] Hint Resolve keeps_read_file keeps_write_file keeps_os_remove
  keeps_os_path_exists : keeps.

Lemma keeps_torch_save_to (E : env) (obj : blob) (p : path) : keeps (torch_save_to E obj p).
Proof. unfold torch_save_to. keeps_auto. Qed.

Lemma keeps_torch_load_from (E : env) (p : path) : keeps (torch_load_from E p).
Proof. unfold torch_load_from. keeps_auto. Qed.

Lemma keeps_select_base (CHECKPOINT_DIR : path) (E : env) :
  keeps (select_base CHECKPOINT_DIR E).
Proof. unfold select_base. keeps_auto. Qed.

Lemma keeps_upload_cleanup (E : env) (f : upload_file) (e : exn) :
  keeps (upload_cleanup E f e).
Proof. unfold upload_cleanup. keeps_auto. Qed.

#[local] Hint Resolve keeps_torch_save_to keeps_torch_load_from keeps_select_base
  keeps_upload_cleanup : keeps.

Lemma keeps_list_voices (E : env) : keeps (list_voices E).
Proof. unfold list_voices. keeps_auto; try (intros w; reflexivity). Qed.

Lemma keeps_get_audio (E : env) (id : string) : keeps (get_audio E id).
Proof. unfold get_audio. keeps_auto. Qed.

Lemma keeps_get_generation_history (E : env) : keeps (get_generation_history E).
Proof. unfold get_generation_history. keeps_auto; try (intros w; reflexivity). Qed.

Lemma adds_voice_refl d : adds_voice d d.
Proof. split; [reflexivity|left; reflexivity]. Qed.

Lemma adds_audio_refl id d : adds_audio id d d.
Proof. split; [reflexivity|left; reflexivity]. Qed.

Lemma changes_insert_voice_model (E : env) (r : voice_row) :
  changes adds_voice (insert_voice_model E r).
Proof.
  intros w. unfold insert_voice_model.
  destruct (negb (db_ok E)); [apply adds_voice_refl|].
  destruct (existsb _ _); [apply adds_voice_refl|].
  split; [reflexivity|right; eexists; reflexivity].
Qed.

Lemma changes_insert_generated_audio (E : env) (r : audio_row) :
  changes (adds_audio (ga_voice_id r)) (insert_generated_audio E r).
Proof.
  intros w. unfold insert_generated_audio.
  destruct (negb (db_ok E)); [apply adds_audio_refl|].
  destruct (existsb _ _); [apply adds_audio_refl|].
  split; [reflexivity|right; eexists; split; reflexivity].
Qed.

(** Walks the prefix of a computation that keeps the tables. *)
Ltac changes_prefix Hrefl :=
  repeat (apply changes_bind; [solve [keeps_auto]| intros ? | exact Hrefl]).

Lemma changes_upload_voice (E : env) (f : upload_file) (name : string)
    (description : option string) :
  changes adds_voice (upload_voice E f name description).
Proof.
  unfold upload_voice.
  destruct (negb _); [intros w; apply adds_voice_refl|].
  apply changes_bind; [solve [keeps_auto]| intros _ | exact adds_voice_refl].
  apply changes_try_except; [|intros e; auto with keeps].
  unfold upload_processing. changes_prefix adds_voice_refl.
  intros w. unfold bind, ret.
  pose proof (changes_insert_voice_model E (new_voice_row E f name description) w) as H.
  destruct (insert_voice_model E _ w) as [[[]|e] w1]; exact H.
Qed.

(** The [try] block of [synthesize_speech] appends at most one row, for the
    requested voice. *)
Lemma changes_synthesize_speech (CHECKPOINT_DIR : path) (E : env) (q : tts_request) :
  changes (adds_audio (voice_id q)) (synthesize_speech CHECKPOINT_DIR E q).
Proof.
  unfold synthesize_speech.
  apply changes_bind; [solve [keeps_auto]| intros _ | exact (adds_audio_refl _)].
  apply changes_bind; [solve [keeps_auto]| intros result | exact (adds_audio_refl _)].
  destruct result as [se|]; [|intros w; apply adds_audio_refl].
  apply changes_try_except; [|intros e; auto with keeps].
  changes_prefix (adds_audio_refl (voice_id q)).
  intros w. unfold bind, ret.
  match goal with
  | |- context [insert_generated_audio E ?r w] =>
      pose proof (changes_insert_generated_audio E r w) as H;
      destruct (insert_generated_audio E r w) as [[[]|e] w1]; exact H
  end.
Qed.

(** The lookup of [synthesize_speech] decides whether anything is inserted. *)
Lemma synthesize_speech_unknown_voice (CHECKPOINT_DIR : path) (E : env) (q : tts_request)
    (w : world) :
  find (fun r => String.eqb (vm_id r) (voice_id q)) (voice_models w) = None ->
  synthesize_speech CHECKPOINT_DIR E q w =
    if db_ok E then (Raise (HTTPException 404 "Voice model not found"), w)
    else (Raise (DatabaseError "unable to open database file"), w).
Proof.
  intros Hnone. unfold synthesize_speech, bind at 1, db_connect.
  destruct (db_ok E); [|reflexivity].
  unfold ret at 1, bind at 1, select_se_file_path. rewrite Hnone. reflexivity.
Qed.

(** What one request does to the tables. *)
Lemma handle_tables (CHECKPOINT_DIR : path) (E : env) (r : request) (w : world) :
  let w' := snd (handle CHECKPOINT_DIR E r w) in
  match r with
  | PostUploadVoice _ _ _ =>
      generated_audio w' = generated_audio w /\
      (voice_models w' = voice_models w \/
       exists row, voice_models w' = voice_models w ++ [row])
  | PostSynthesize q =>
      voice_models w' = voice_models w /\
      (generated_audio w' = generated_audio w \/
       exists row v,
         generated_audio w' = generated_audio w ++ [row] /\
         ga_voice_id row = voice_id q /\
         In v (voice_models w) /\ vm_id v = voice_id q)
  | _ => voice_models w' = voice_models w /\ generated_audio w' = generated_audio w
  end.
Proof.
  destruct r as [|f name description| |q|audio_id|]; cbn [handle].
  - split; reflexivity.
  - destruct (changes_upload_voice E f name description w) as [H1 H2].
    split; [exact H1|exact H2].
  - pose proof (keeps_list_voices E w) as H. injection H as H1 H2. split; assumption.
  - destruct (changes_synthesize_speech CHECKPOINT_DIR E q w) as [H1 H2].
    cbn [db fst snd] in H1, H2. split; [exact H1|].
    destruct H2 as [H2|(row & H2 & Hrow)]; [left; exact H2|].
    destruct (find (fun r => String.eqb (vm_id r) (voice_id q)) (voice_models w))
      as [v|] eqn:Hfind.
    + right. exists row, v. apply find_some in Hfind. destruct Hfind as [Hin Heq].
      apply String.eqb_eq in Heq. repeat split; assumption.
    + left. rewrite (synthesize_speech_unknown_voice CHECKPOINT_DIR E q w Hfind).
      destruct (db_ok E); reflexivity.
  - pose proof (keeps_get_audio E audio_id w) as H. injection H as H1 H2. split; assumption.
  - pose proof (keeps_get_generation_history E w) as H. injection H as H1 H2.
    split; assumption.
Qed.

Lemma handle_referential (CHECKPOINT_DIR : path) (E : env) (r : request) (w : world) :
  referential w -> referential (snd (handle CHECKPOINT_DIR E r w)).
Proof.
  intros Hinv. pose proof (handle_tables CHECKPOINT_DIR E r w) as H. cbv zeta in H.
  unfold referential in *.
  destruct r; try (destruct H as [Hvm Hga]; rewrite Hvm, Hga; exact Hinv).
  - destruct H as [Hga Hvm]. rewrite Hga. intros row Hrow.
    destruct (Hinv row Hrow) as (v & Hv & Hid).
    exists v. split; [|exact Hid].
    destruct Hvm as [->|[new ->]]; [exact Hv|apply in_or_app; left; exact Hv].
  - destruct H as [Hvm Hga]. rewrite Hvm.
    destruct Hga as [->|(row' & v & -> & Hid & Hv & Hvid)]; [exact Hinv|].
    intros row Hrow. apply in_app_or in Hrow. destruct Hrow as [Hrow|[<-|[]]].
    + apply (Hinv row Hrow).
    + exists v. split; [exact Hv|congruence].
Qed.

Lemma serve_referential (CHECKPOINT_DIR : path) (rs : list (env * request)) :
  forall w, referential w -> referential (serve CHECKPOINT_DIR rs w).
Proof.
  induction rs as [|[E r] rs IH]; intros w Hinv; cbn [serve]; [exact Hinv|].
  apply IH. apply handle_referential. exact Hinv.
Qed.

Lemma handle_voice_models_prefix (CHECKPOINT_DIR : path) (E : env) (r : request) (w : world) :
  exists added, voice_models (snd (handle CHECKPOINT_DIR E r w)) = voice_models w ++ added.
Proof.
  pose proof (handle_tables CHECKPOINT_DIR E r w) as H. cbv zeta in H.
  destruct r; try (destruct H as [-> _]; exists []; symmetry; apply app_nil_r).
  destruct H as [_ [->|[row ->]]]; [exists []; symmetry; apply app_nil_r|eauto].
Qed.

Lemma serve_voice_models_prefix (CHECKPOINT_DIR : path) (rs : list (env * request)) :
  forall w, exists added, voice_models (serve CHECKPOINT_DIR rs w) = voice_models w ++ added.
Proof.
  induction rs as [|[E r] rs IH]; intros w; cbn [serve].
  - exists []. symmetry. apply app_nil_r.
  - destruct (IH (snd (handle CHECKPOINT_DIR E r w))) as [l2 ->].
    destruct (handle_voice_models_prefix CHECKPOINT_DIR E r w) as [l1 ->].
    exists (l1 ++ l2). symmetry. apply app_assoc.
Qed.

(** ** The tables over time *)

(** C4: a synthesize request whose voice id matches no row of
    [voice_models] is answered 404 with the state untouched; a synthesize
    request appends at most one row to [generated_audio], and that row
    carries the requested voice id, which a row of [voice_models] had when
    the request started; so every state reached from an empty database
    has all its generated-audio rows pointing at voice rows. *)
Theorem generated_audio_voice_exists (CHECKPOINT_DIR : path) :
  (forall E q w,
     find (fun r => String.eqb (vm_id r) (voice_id q)) (voice_models w) = None ->
     db_ok E = true ->
     synthesize_speech CHECKPOINT_DIR E q w =
       (Raise (HTTPException 404 "Voice model not found"), w)) /\
  (forall E q w,
     voice_models (snd (synthesize_speech CHECKPOINT_DIR E q w)) = voice_models w /\
     (generated_audio (snd (synthesize_speech CHECKPOINT_DIR E q w)) = generated_audio w \/
      exists row v,
        generated_audio (snd (synthesize_speech CHECKPOINT_DIR E q w)) =
          generated_audio w ++ [row] /\
        ga_voice_id row = voice_id q /\
        In v (voice_models w) /\ vm_id v = voice_id q)) /\
  (forall rs f, referential (serve CHECKPOINT_DIR rs (fresh f))).
Proof.
  split; [|split].
  - intros E q w Hnone Hdb.
    rewrite (synthesize_speech_unknown_voice CHECKPOINT_DIR E q w Hnone), Hdb. reflexivity.
  - intros E q w. apply (handle_tables CHECKPOINT_DIR E (PostSynthesize q) w).
  - intros rs f. apply serve_referential. intros row [].
Qed.

Lemma generated_audio_voice_exists_witness :
  find (fun r => String.eqb (vm_id r) (voice_id unknown_voice_request))
    (voice_models uploaded) = None /\
  synthesize_speech ["checkpoints_v2"] quiet_env unknown_voice_request uploaded =
    (Raise (HTTPException 404 "Voice model not found"), uploaded).
Proof.
  split; [reflexivity|].
  apply (proj1 (generated_audio_voice_exists ["checkpoints_v2"])); reflexivity.
Defined.

(** C5: only an upload changes [voice_models], and it only appends one row;
    over any sequence of requests the table grows at its end, so a row
    that is in the table stays there, at its place and with its fields. *)
Theorem voice_models_append_only (CHECKPOINT_DIR : path) :
  (forall E r w,
     match r with
     | PostUploadVoice _ _ _ =>
         voice_models (snd (handle CHECKPOINT_DIR E r w)) = voice_models w \/
         exists row, voice_models (snd (handle CHECKPOINT_DIR E r w)) = voice_models w ++ [row]
     | _ => voice_models (snd (handle CHECKPOINT_DIR E r w)) = voice_models w
     end) /\
  (forall rs w,
     exists added, voice_models (serve CHECKPOINT_DIR rs w) = voice_models w ++ added) /\
  (forall rs w i row,
     nth_error (voice_models w) i = Some row ->
     nth_error (voice_models (serve CHECKPOINT_DIR rs w)) i = Some row).
Proof.
  split; [|split].
  - intros E r w. pose proof (handle_tables CHECKPOINT_DIR E r w) as H. cbv zeta in H.
    destruct r; tauto.
  - intros rs w. apply serve_voice_models_prefix.
  - intros rs w i row Hrow.
    destruct (serve_voice_models_prefix CHECKPOINT_DIR rs w) as [added ->].
    rewrite nth_error_app1; [exact Hrow|].
    apply nth_error_Some. congruence.
Qed.

Lemma voice_models_append_only_witness :
  nth_error (voice_models uploaded) 0 =
    Some (new_voice_row quiet_env wav_upload "Ann" None) /\
  nth_error
    (voice_models
       (serve ["checkpoints_v2"]
          [(quiet_env, PostSynthesize sample_request);
           (failing_env, PostUploadVoice wav_upload "Bob" None);
           (quiet_env, GetHistory)]
          uploaded)) 0 =
    Some (new_voice_row quiet_env wav_upload "Ann" None).
Proof.
  split; [reflexivity|].
  apply (proj2 (proj2 (voice_models_append_only ["checkpoints_v2"]))).
  reflexivity.
Defined.

(** ** The calls into the model library *)

Section Emits.
Context {A B : Type} (phi : event -> Prop).

Lemma emits_ret (a : A) : emits phi (ret a).
Proof. intros w. exists []. split; [symmetry; apply app_nil_r|constructor]. Qed.

Lemma emits_raise (e : exn) : emits phi (@raise A e).
Proof. intros w. exists []. split; [symmetry; apply app_nil_r|constructor]. Qed.

Lemma emits_lift (r : result A) : emits phi (lift r).
Proof. intros w. exists []. split; [symmetry; apply app_nil_r|constructor]. Qed.

Lemma emits_bind (m : M A) (k : A -> M B) :
  emits phi m -> (forall a, emits phi (k a)) -> emits phi (bind m k).
Proof.
  intros Hm Hk w. unfold bind. destruct (Hm w) as (l1 & H1 & F1).
  destruct (m w) as [[a|e] w1]; cbn [snd] in *; [|eauto].
  destruct (Hk a w1) as (l2 & H2 & F2).
  exists (l1 ++ l2). split; [|apply Forall_app; split; assumption].
  rewrite H2, H1. symmetry. apply app_assoc.
Qed.

Lemma emits_try_except (body : M A) (handler : exn -> M A) :
  emits phi body -> (forall e, emits phi (handler e)) -> emits phi (try_except body handler).
Proof.
  intros Hm Hk w. unfold try_except. destruct (Hm w) as (l1 & H1 & F1).
  destruct (body w) as [[a|e] w1]; cbn [snd] in *; [eauto|].
  destruct (Hk e w1) as (l2 & H2 & F2).
  exists (l1 ++ l2). split; [|apply Forall_app; split; assumption].
  rewrite H2, H1. symmetry. apply app_assoc.
Qed.

End Emits.

Lemma emits_call (phi : event -> Prop) (ev : event) : phi ev -> emits phi (call ev).
Proof. intros H w. exists [ev]. split; [reflexivity|repeat constructor; exact H]. Qed.

(** A computation that makes no call at all. *)
Lemma emits_silent {A} (phi : event -> Prop) (m : M A) :
  (forall w, calls (snd (m w)) = calls w) -> emits phi m.
Proof.
  intros H w. exists []. split; [rewrite H; symmetry; apply app_nil_r|constructor].
Qed.

Lemma emits_get_fs phi : emits phi get_fs.
Proof. apply emits_silent. reflexivity. Qed.

Lemma emits_put_fs phi f : emits phi (put_fs f).
Proof. apply emits_silent. reflexivity. Qed.

Lemma emits_db_connect phi E : emits phi (db_connect E).
Proof. apply emits_silent. intros w. unfold db_connect. destruct (db_ok E); reflexivity. Qed.

Lemma emits_select_se_file_path phi id : emits phi (select_se_file_path id).
Proof. apply emits_silent. reflexivity. Qed.

Lemma emits_insert_generated_audio phi E r : emits phi (insert_generated_audio E r).
Proof.
  apply emits_silent. intros w. unfold insert_generated_audio.
  destruct (negb (db_ok E)); [reflexivity|]. destruct (existsb _ _); reflexivity.
Qed.

Lemma emits_call_ensure_base_checkpoints_v1 phi E :
  emits phi (call_ensure_base_checkpoints_v1 E).
Proof.
  apply emits_silent. intros w. unfold call_ensure_base_checkpoints_v1.
  destruct (ensure_base_checkpoints_v1 (download E) (fs w)). reflexivity.
Qed.

Create HintDb emits.
#[local] Hint Resolve emits_ret emits_raise emits_lift emits_get_fs emits_put_fs
  emits_db_connect emits_select_se_file_path emits_insert_generated_audio
  emits_call_ensure_base_checkpoints_v1 : emits.

Ltac emits_step :=
  match goal with
  | |- emits _ (bind _ _) => apply emits_bind; [|intros ?]
  | |- emits _ (try_except _ _) => apply emits_try_except; [|intros ?]
  | |- emits _ (call _) => apply emits_call; cbn; solve [auto]
  | |- emits _ (match ?x with _ => _ end) => destruct x
  | |- emits _ (if ?b then _ else _) => destruct b
  | |- emits _ _ => solve [auto with emits]
  end.
Ltac emits_auto := repeat emits_step.

Lemma emits_read_file phi p : emits phi (read_file p).
Proof. unfold read_file. emits_auto. Qed.

Lemma emits_write_file phi p data : emits phi (write_file p data).
Proof. unfold write_file. emits_auto. Qed.

Lemma emits_select_base phi CHECKPOINT_DIR E : emits phi (select_base CHECKPOINT_DIR E).
Proof. unfold select_base. emits_auto. Qed.

#[local] Hint Resolve emits_read_file emits_write_file emits_select_base : emits.

(** ** The choice of the base model *)

(** [ensure_base_checkpoints_v1] returns the fixed directory [checkpoints]. *)
Lemma ensure_base_checkpoints_v1_ok (dl : fetched) (f : node) (d : path) (f' : node) :
  ensure_base_checkpoints_v1 dl f = (Ok d, f') -> d = ["checkpoints"].
Proof.
  unfold ensure_base_checkpoints_v1.
  destruct (forallb _ _); [intros [= <- _]; reflexivity|].
  destruct (makedirs f base_dir); [|discriminate].
  destruct dl as [| |es]; try discriminate.
  destruct (candidate_root _ _); [|discriminate].
  destruct (listdir _ _); [|discriminate].
  destruct (merge_items _ _ _ _ _) as [[[]|e] f2]; [|discriminate].
  intros [= <- _]. reflexivity.
Qed.

(** The choice as one equation: the V2 paths when both files exist, else
    whatever [ensure_base_checkpoints_v1] gives, extended to the V1 paths. *)
Lemma select_base_eq (CHECKPOINT_DIR : path) (E : env) (w : world) :
  select_base CHECKPOINT_DIR E w =
  if path_exists (fs w) (v2_env2_cfg CHECKPOINT_DIR)
     && path_exists (fs w) (v2_env2_ckpt CHECKPOINT_DIR)
  then (Ok (v2_env2_cfg CHECKPOINT_DIR, v2_env2_ckpt CHECKPOINT_DIR), w)
  else
    match ensure_base_checkpoints_v1 (download E) (fs w) with
    | (Ok v1_base_dir, f') =>
        (Ok (v1_base_dir ++ ["base_speakers"; "EN"; "config.json"],
             v1_base_dir ++ ["base_speakers"; "EN"; "checkpoint.pth"]),
         set_fs f' w)
    | (Raise e, f') => (Raise e, set_fs f' w)
    end.
Proof.
  unfold select_base, bind at 1, get_fs.
  destruct (_ && _); [reflexivity|].
  unfold bind, call_ensure_base_checkpoints_v1, ret.
  destruct (ensure_base_checkpoints_v1 (download E) (fs w)) as [[d|e] f']; reflexivity.
Qed.

Lemma select_base_ok (CHECKPOINT_DIR : path) (E : env) (w : world)
    (base : path * path) (w' : world) :
  select_base CHECKPOINT_DIR E w = (Ok base, w') ->
  base = selected_base CHECKPOINT_DIR (fs w) /\ calls w' = calls w.
Proof.
  rewrite select_base_eq. unfold selected_base, v2_env2_cfg, v2_env2_ckpt.
  destruct (_ && _).
  - intros [= <- <-]. split; reflexivity.
  - destruct (ensure_base_checkpoints_v1 (download E) (fs w)) as [[d|e] f'] eqn:Hens;
      [|discriminate].
    apply ensure_base_checkpoints_v1_ok in Hens. subst d.
    intros [= <- <-]. split; reflexivity.
Qed.

(** ** Inversion of successful runs *)

Lemma bind_Ok {A B} (m : M A) (k : A -> M B) (w : world) (b : B) (w' : world) :
  bind m k w = (Ok b, w') ->
  exists a w1, m w = (Ok a, w1) /\ k a w1 = (Ok b, w').
Proof.
  unfold bind. destruct (m w) as [[a|e] w1]; [eauto|discriminate].
Qed.

Lemma try_raise_Ok {A} (body : M A) (h : exn -> exn) (w : world) (a : A) (w' : world) :
  try_except body (fun e => raise (h e)) w = (Ok a, w') -> body w = (Ok a, w').
Proof.
  unfold try_except, raise. destruct (body w) as [[a'|e] w1]; [auto|discriminate].
Qed.

Lemma try_raise_snd {A} (body : M A) (h : exn -> exn) (w : world) :
  snd (try_except body (fun e => raise (h e)) w) = snd (body w).
Proof. unfold try_except, raise. destruct (body w) as [[a'|e] w1]; reflexivity. Qed.

Lemma call_inv (ev : event) (w : world) (r : result unit) (w' : world) :
  call ev w = (r, w') -> fs w' = fs w /\ calls w' = calls w ++ [ev].
Proof. intros [= <- <-]. split; reflexivity. Qed.

Lemma read_file_inv (p : path) (w : world) (r : result blob) (w' : world) :
  read_file p w = (r, w') -> w' = w.
Proof. rewrite read_file_eq. intros [= _ <-]. reflexivity. Qed.

Lemma lift_inv {A} (x : result A) (w : world) (r : result A) (w' : world) :
  lift x w = (r, w') -> w' = w.
Proof. intros [= _ <-]. reflexivity. Qed.

Lemma write_file_inv (p : path) (data : blob) (w : world) (r : result unit) (w' : world) :
  write_file p data w = (r, w') -> calls w' = calls w.
Proof.
  rewrite write_file_eq. destruct (isdir _ _); [intros [= _ <-]; reflexivity|].
  destruct (put _ _ _); intros [= _ <-]; reflexivity.
Qed.

Lemma insert_generated_audio_inv (E : env) (row : audio_row) (w : world)
    (r : result unit) (w' : world) :
  insert_generated_audio E row w = (r, w') -> calls w' = calls w.
Proof.
  unfold insert_generated_audio. destruct (negb _); [intros [= _ <-]; reflexivity|].
  destruct (existsb _ _); intros [= _ <-]; reflexivity.
Qed.

Lemma torch_load_from_inv (E : env) (p : path) (w : world) (r : result blob) (w' : world) :
  torch_load_from E p w = (r, w') ->
  fs w' = fs w /\ calls w' = calls w ++ [TorchLoad p].
Proof.
  unfold torch_load_from, bind at 1, call. unfold bind. rewrite read_file_eq. cbn [fs].
  destruct (resolve (fs w) p) as [[data|es]|]; unfold lift, raise;
    intros [= _ <-]; split; reflexivity.
Qed.

Lemma select_base_calls (CHECKPOINT_DIR : path) (E : env) (w : world) :
  calls (snd (select_base CHECKPOINT_DIR E w)) = calls w.
Proof.
  rewrite select_base_eq. destruct (_ && _); [reflexivity|].
  destruct (ensure_base_checkpoints_v1 _ _) as [[d|e] f']; reflexivity.
Qed.

Lemma emits_torch_load_from (phi : event -> Prop) (E : env) (p : path) :
  phi (TorchLoad p) -> emits phi (torch_load_from E p).
Proof. intros H. unfold torch_load_from. emits_auto. Qed.

(** ** Synthesis *)

(** Every call a synthesize request makes is as the specification has it,
    on every outcome; a request for an unknown voice makes no call. *)
Lemma synthesize_speech_calls (CHECKPOINT_DIR : path) (E : env) (q : tts_request)
    (w : world) :
  exists new,
    calls (snd (synthesize_speech CHECKPOINT_DIR E q w)) = calls w ++ new /\
    match find (fun r => String.eqb (vm_id r) (voice_id q)) (voice_models w) with
    | Some v =>
        Forall (synth_call_of (selected_base CHECKPOINT_DIR (fs w)) (vm_se_file_path v)
                  (source_se_path CHECKPOINT_DIR (accent q))) new
    | None => new = []
    end.
Proof.
  unfold synthesize_speech, bind at 1, db_connect.
  destruct (db_ok E).
  2:{ exists []. split; [symmetry; apply app_nil_r|].
      destruct (find _ _); [constructor|reflexivity]. }
  unfold ret at 1, bind at 1, select_se_file_path.
  destruct (find _ (voice_models w)) as [v|]; cbn [option_map].
  2:{ exists []. split; [symmetry; apply app_nil_r|reflexivity]. }
  rewrite try_raise_snd. unfold bind at 1.
  destruct (torch_load_from E (vm_se_file_path v) w) as [[target|e] w1] eqn:Hload;
    apply torch_load_from_inv in Hload; destruct Hload as [Hfs1 Hc1]; cbn [snd].
  2:{ exists [TorchLoad (vm_se_file_path v)].
      split; [exact Hc1|repeat constructor]. }
  unfold bind at 1.
  pose proof (select_base_calls CHECKPOINT_DIR E w1) as Hc2.
  destruct (select_base CHECKPOINT_DIR E w1) as [[base|e] w2] eqn:Hsel; cbn [snd] in *.
  2:{ exists [TorchLoad (vm_se_file_path v)].
      split; [congruence|repeat constructor]. }
  apply select_base_ok in Hsel. destruct Hsel as [Hbase _]. rewrite Hfs1 in Hbase.
  match goal with
  | |- context [snd (?m w2)] =>
      assert (emits (synth_call_of base (vm_se_file_path v)
                       (source_se_path CHECKPOINT_DIR (accent q))) m) as Hrest
        by (emits_auto; apply emits_torch_load_from; right; reflexivity);
      destruct (Hrest w2) as (new & Hnew & Hall)
  end.
  exists (TorchLoad (vm_se_file_path v) :: new). split.
  - rewrite Hnew, Hc2, Hc1, <- app_assoc. reflexivity.
  - constructor; [left; reflexivity|]. rewrite <- Hbase. exact Hall.
Qed.

Lemma synthesize_speech_base_calls (CHECKPOINT_DIR : path) (E : env) (q : tts_request)
    (w : world) :
  exists new,
    calls (snd (synthesize_speech CHECKPOINT_DIR E q w)) = calls w ++ new /\
    Forall (base_call_of (selected_base CHECKPOINT_DIR (fs w))) new.
Proof.
  destruct (synthesize_speech_calls CHECKPOINT_DIR E q w) as (new & Hnew & Hall).
  exists new. split; [exact Hnew|].
  destruct (find _ _) as [v|]; [|subst new; constructor].
  eapply Forall_impl; [exact Hall|].
  intros [] H; cbn in *; auto.
Qed.

(** The calls of a successful synthesize request, in order. *)
Lemma synthesize_speech_ok_calls (CHECKPOINT_DIR : path) (E : env) (q : tts_request)
    (w : world) (p : payload) (w' : world) :
  synthesize_speech CHECKPOINT_DIR E q w = (Ok p, w') ->
  exists v model,
    find (fun r => String.eqb (vm_id r) (voice_id q)) (voice_models w) = Some v /\
    calls w' =
      calls w ++
      [ TorchLoad (vm_se_file_path v);
        BaseSpeakerTTS (fst (selected_base CHECKPOINT_DIR (fs w)));
        LoadCkpt (snd (selected_base CHECKPOINT_DIR (fs w)));
        TorchLoad (source_se_path CHECKPOINT_DIR (accent q));
        TTS (text q) (speaker_key model) "English" (speed q);
        Convert [AUDIO_DIR; uuid4 E +:+ ".wav"] "@MyShell" ].
Proof.
  unfold synthesize_speech. intros H.
  apply bind_Ok in H. destruct H as (? & w0 & H0 & H).
  assert (w0 = w) as ->.
  { unfold db_connect in H0. destruct (db_ok E); [|discriminate]. injection H0; auto. }
  apply bind_Ok in H. destruct H as (result & w0 & Hsel & H).
  injection Hsel as <- <-.
  destruct (find _ (voice_models w)) as [v|]; cbn [option_map] in H; [|discriminate].
  apply try_raise_Ok in H.
  apply bind_Ok in H. destruct H as (target & w1 & H1 & H).
  apply torch_load_from_inv in H1. destruct H1 as [Hfs1 Hc1].
  apply bind_Ok in H. destruct H as (base & w2 & H2 & H).
  apply select_base_ok in H2. destruct H2 as [Hbase Hc2]. rewrite Hfs1 in Hbase.
  apply bind_Ok in H. destruct H as (? & w3 & H3 & H).
  apply call_inv in H3. destruct H3 as [_ Hc3].
  apply bind_Ok in H. destruct H as (cfg & w4 & H4 & H).
  apply read_file_inv in H4. subst w4.
  apply bind_Ok in H. destruct H as (model & w5 & H5 & H).
  apply lift_inv in H5. subst w5.
  apply bind_Ok in H. destruct H as (? & w6 & H6 & H).
  apply call_inv in H6. destruct H6 as [_ Hc6].
  apply bind_Ok in H. destruct H as (ckpt & w7 & H7 & H).
  apply read_file_inv in H7. subst w7.
  apply bind_Ok in H. destruct H as (? & w8 & H8 & H).
  apply lift_inv in H8. subst w8.
  apply bind_Ok in H. destruct H as (source_se & w9 & H9 & H).
  apply torch_load_from_inv in H9. destruct H9 as [_ Hc9].
  apply bind_Ok in H. destruct H as (? & w10 & H10 & H).
  apply call_inv in H10. destruct H10 as [_ Hc10].
  apply bind_Ok in H. destruct H as (wave & w11 & H11 & H).
  apply lift_inv in H11. subst w11.
  apply bind_Ok in H. destruct H as (? & w12 & H12 & H).
  apply call_inv in H12. destruct H12 as [_ Hc12].
  apply bind_Ok in H. destruct H as (audio & w13 & H13 & H).
  apply lift_inv in H13. subst w13.
  apply bind_Ok in H. destruct H as (? & w14 & H14 & H).
  apply write_file_inv in H14.
  apply bind_Ok in H. destruct H as (? & w15 & H15 & H).
  apply insert_generated_audio_inv in H15.
  injection H as _ <-.
  exists v, model. split; [reflexivity|].
  rewrite H15, H14, Hc12, Hc10, Hc9, Hc6, Hc3, Hc2, Hc1, <- Hbase.
  rewrite <- !app_assoc. reflexivity.
Qed.

Lemma v2_paths_not_v1 (CHECKPOINT_DIR : path) :
  CHECKPOINT_DIR ++ ["base_speakers"; "EN_V2"; "config.json"] <>
  ["checkpoints"; "base_speakers"; "EN"; "config.json"].
Proof.
  intros H.
  destruct CHECKPOINT_DIR as [|a [|b l]]; [discriminate| |].
  - cbn in H. discriminate H.
  - apply (f_equal (@List.length string)) in H. cbn in H. rewrite length_app in H.
    cbn in H. lia.
Qed.

(** C6: the base paths of a synthesize request are the V2 EN_V2 paths
    exactly when both V2 files exist; otherwise they are the V1 EN paths
    under the directory [ensure_base_checkpoints_v1] returns; and every
    call into the base TTS model made by the request uses the selected
    paths, both of them on a successful request. *)
Theorem synthesize_selects_base_variant (CHECKPOINT_DIR : path) (E : env) :
  (forall w,
     select_base CHECKPOINT_DIR E w =
     if path_exists (fs w) (CHECKPOINT_DIR ++ ["base_speakers"; "EN_V2"; "config.json"])
        && path_exists (fs w) (CHECKPOINT_DIR ++ ["base_speakers"; "EN_V2"; "checkpoint.pth"])
     then (Ok (CHECKPOINT_DIR ++ ["base_speakers"; "EN_V2"; "config.json"],
               CHECKPOINT_DIR ++ ["base_speakers"; "EN_V2"; "checkpoint.pth"]), w)
     else
       match ensure_base_checkpoints_v1 (download E) (fs w) with
       | (Ok v1_base_dir, f') =>
           (Ok (v1_base_dir ++ ["base_speakers"; "EN"; "config.json"],
                v1_base_dir ++ ["base_speakers"; "EN"; "checkpoint.pth"]),
            set_fs f' w)
       | (Raise e, f') => (Raise e, set_fs f' w)
       end) /\
  (forall w base w',
     select_base CHECKPOINT_DIR E w = (Ok base, w') ->
     (path_exists (fs w) (CHECKPOINT_DIR ++ ["base_speakers"; "EN_V2"; "config.json"])
      && path_exists (fs w) (CHECKPOINT_DIR ++ ["base_speakers"; "EN_V2"; "checkpoint.pth"])
      = true <->
      base = (CHECKPOINT_DIR ++ ["base_speakers"; "EN_V2"; "config.json"],
              CHECKPOINT_DIR ++ ["base_speakers"; "EN_V2"; "checkpoint.pth"])) /\
     base = selected_base CHECKPOINT_DIR (fs w)) /\
  (forall q w,
     exists new,
       calls (snd (synthesize_speech CHECKPOINT_DIR E q w)) = calls w ++ new /\
       Forall (base_call_of (selected_base CHECKPOINT_DIR (fs w))) new) /\
  (forall q w p w',
     synthesize_speech CHECKPOINT_DIR E q w = (Ok p, w') ->
     exists before after,
       calls w' =
         calls w ++ before ++
         [BaseSpeakerTTS (fst (selected_base CHECKPOINT_DIR (fs w)));
          LoadCkpt (snd (selected_base CHECKPOINT_DIR (fs w)))] ++ after).
Proof.
  split; [|split; [|split]].
  - intros w. apply select_base_eq.
  - intros w base w' H. apply select_base_ok in H. destruct H as [-> _].
    split; [|reflexivity]. unfold selected_base.
    destruct (_ && _); split; try reflexivity; try discriminate.
    intros [= H _]. symmetry in H. destruct (v2_paths_not_v1 _ H).
  - intros q w. apply synthesize_speech_base_calls.
  - intros q w p w' H.
    destruct (synthesize_speech_ok_calls _ _ _ _ _ _ H) as (v & model & _ & ->).
    eexists [_], [_; _; _]. reflexivity.
Qed.

Lemma synthesize_selects_base_variant_witness :
  fst (synthesize_speech ["checkpoints_v2"] later_env sample_request uploaded) =
    Ok (SynthOk (uuid4 later_env) (voice_id sample_request) (text sample_request)
          [AUDIO_DIR; uuid4 later_env +:+ ".wav"] "Speech synthesized successfully") /\
  exists before after,
    calls (snd (synthesize_speech ["checkpoints_v2"] later_env sample_request uploaded)) =
      calls uploaded ++ before ++
      [BaseSpeakerTTS ["checkpoints"; "base_speakers"; "EN"; "config.json"];
       LoadCkpt ["checkpoints"; "base_speakers"; "EN"; "checkpoint.pth"]] ++ after.
Proof.
  split; [vm_compute; reflexivity|].
  apply (proj2 (proj2 (proj2
           (synthesize_selects_base_variant ["checkpoints_v2"] later_env)))
           sample_request uploaded
           (SynthOk (uuid4 later_env) (voice_id sample_request) (text sample_request)
              [AUDIO_DIR; uuid4 later_env +:+ ".wav"] "Speech synthesized successfully")).
  vm_compute. reflexivity.
Defined.

(** ** The accent table *)

Lemma accent_table_keys (a : string) :
  ACCENT_TO_SES_FILE !! a = None <-> ~ In a accent_codes.
Proof.
  unfold ACCENT_TO_SES_FILE. rewrite <- not_elem_of_list_to_map.
  rewrite list_elem_of_In. reflexivity.
Qed.

Lemma source_se_path_default (CHECKPOINT_DIR : path) (a : string) :
  ACCENT_TO_SES_FILE !! a = None ->
  source_se_path CHECKPOINT_DIR a = source_se_path CHECKPOINT_DIR "en-newest".
Proof.
  intros H. unfold source_se_path, ses_file. rewrite H. reflexivity.
Qed.

(** C7: the table maps each of the eleven accent codes to its own [.pth]
    file and has no other key; for a request whose accent is a key, the
    source embedding path is that file under
    [CHECKPOINT_DIR/base_speakers/ses], every embedding the request loads
    comes from the voice's own file or from that path, and a successful
    request has loaded it, after the base model and before synthesis. *)
Theorem accent_selects_source_embedding (CHECKPOINT_DIR : path) :
  Forall (fun code => ACCENT_TO_SES_FILE !! code = Some (code +:+ ".pth")) accent_codes /\
  (forall a, is_Some (ACCENT_TO_SES_FILE !! a) <-> In a accent_codes) /\
  (forall a f,
     ACCENT_TO_SES_FILE !! a = Some f ->
     source_se_path CHECKPOINT_DIR a = CHECKPOINT_DIR ++ ["base_speakers"; "ses"; f]) /\
  (forall E q w f v,
     ACCENT_TO_SES_FILE !! accent q = Some f ->
     find (fun r => String.eqb (vm_id r) (voice_id q)) (voice_models w) = Some v ->
     exists new,
       calls (snd (synthesize_speech CHECKPOINT_DIR E q w)) = calls w ++ new /\
       Forall (synth_call_of (selected_base CHECKPOINT_DIR (fs w)) (vm_se_file_path v)
                 (CHECKPOINT_DIR ++ ["base_speakers"; "ses"; f])) new) /\
  (forall E q w f p w',
     ACCENT_TO_SES_FILE !! accent q = Some f ->
     synthesize_speech CHECKPOINT_DIR E q w = (Ok p, w') ->
     exists v model,
       calls w' =
         calls w ++
         [ TorchLoad (vm_se_file_path v);
           BaseSpeakerTTS (fst (selected_base CHECKPOINT_DIR (fs w)));
           LoadCkpt (snd (selected_base CHECKPOINT_DIR (fs w)));
           TorchLoad (CHECKPOINT_DIR ++ ["base_speakers"; "ses"; f]);
           TTS (text q) (speaker_key model) "English" (speed q);
           Convert [AUDIO_DIR; uuid4 E +:+ ".wav"] "@MyShell" ]).
Proof.
  assert (forall a f, ACCENT_TO_SES_FILE !! a = Some f ->
            source_se_path CHECKPOINT_DIR a = CHECKPOINT_DIR ++ ["base_speakers"; "ses"; f])
    as Hpath.
  { intros a f H. unfold source_se_path, ses_file. rewrite H. reflexivity. }
  split; [|split; [|split; [|split]]].
  - repeat constructor.
  - intros a. rewrite <- not_eq_None_Some, accent_table_keys.
    split; [|tauto]. intros H.
    destruct (In_dec string_dec a accent_codes); tauto.
  - exact Hpath.
  - intros E q w f v Hf Hv.
    destruct (synthesize_speech_calls CHECKPOINT_DIR E q w) as (new & Hnew & Hall).
    rewrite Hv, (Hpath _ _ Hf) in Hall. eauto.
  - intros E q w f p w' Hf H.
    destruct (synthesize_speech_ok_calls _ _ _ _ _ _ H) as (v & model & _ & ->).
    rewrite (Hpath _ _ Hf). eauto.
Qed.

Lemma accent_selects_source_embedding_witness :
  ACCENT_TO_SES_FILE !! accent french_request = Some "fr.pth" /\
  exists v model,
    calls (snd (synthesize_speech ["checkpoints_v2"] later_env french_request accent_world)) =
      calls accent_world ++
      [ TorchLoad (vm_se_file_path v);
        BaseSpeakerTTS ["checkpoints_v2"; "base_speakers"; "EN_V2"; "config.json"];
        LoadCkpt ["checkpoints_v2"; "base_speakers"; "EN_V2"; "checkpoint.pth"];
        TorchLoad ["checkpoints_v2"; "base_speakers"; "ses"; "fr.pth"];
        TTS "Bonjour" (speaker_key model) "English" PrimFloat.one;
        Convert [AUDIO_DIR; uuid4 later_env +:+ ".wav"] "@MyShell" ].
Proof.
  split; [reflexivity|].
  apply (proj2 (proj2 (proj2 (proj2
           (accent_selects_source_embedding ["checkpoints_v2"]))))
           later_env french_request accent_world "fr.pth"
           (SynthOk (uuid4 later_env) (voice_id french_request) (text french_request)
              [AUDIO_DIR; uuid4 later_env +:+ ".wav"] "Speech synthesized successfully")).
  - reflexivity.
  - vm_compute. reflexivity.
Defined.

(** ** Requests that differ in the accent code only *)

Lemma same_but_accent_refl {A} (o : result A * world) : same_but_accent o o.
Proof. repeat split. Qed.

Lemma same_but_accent_bind {A B} (m : M A) (k1 k2 : A -> M B) (w : world) :
  (forall a w1, same_but_accent (k1 a w1) (k2 a w1)) ->
  same_but_accent (bind m k1 w) (bind m k2 w).
Proof.
  intros H. unfold bind. destruct (m w) as [[a|e] w1]; [apply H|apply same_but_accent_refl].
Qed.

Lemma same_but_accent_try {A} (body1 body2 : M A) (h : exn -> exn) (w : world) :
  same_but_accent (body1 w) (body2 w) ->
  same_but_accent (try_except body1 (fun e => raise (h e)) w)
                  (try_except body2 (fun e => raise (h e)) w).
Proof.
  unfold try_except, raise, same_but_accent.
  destruct (body1 w) as [[a1|e1] w1], (body2 w) as [[a2|e2] w2]; cbn [fst snd];
    intros (Hr & Hrest); try discriminate; [split; assumption|].
  injection Hr as ->. split; [reflexivity|exact Hrest].
Qed.

Lemma same_but_accent_insert {A} (E : env) (r1 r2 : audio_row) (p : A) (w : world) :
  forget_accent r1 = forget_accent r2 ->
  same_but_accent (bind (insert_generated_audio E r1) (fun _ => ret p) w)
                  (bind (insert_generated_audio E r2) (fun _ => ret p) w).
Proof.
  intros H. unfold bind, insert_generated_audio, ret, same_but_accent.
  assert (ga_id r1 = ga_id r2) as Hid by (apply (f_equal ga_id) in H; exact H).
  rewrite Hid.
  destruct (negb (db_ok E)); [repeat split|].
  destruct (existsb _ _); [repeat split|].
  cbn [fst snd fs voice_models calls generated_audio]. repeat split.
  rewrite !map_app. cbn [map]. rewrite H. reflexivity.
Qed.

Lemma synthesize_speech_accent_only (CHECKPOINT_DIR : path) (E : env) (q : tts_request)
    (a : string) (w : world) :
  source_se_path CHECKPOINT_DIR (accent q) = source_se_path CHECKPOINT_DIR a ->
  same_but_accent (synthesize_speech CHECKPOINT_DIR E q w)
                  (synthesize_speech CHECKPOINT_DIR E (with_accent a q) w).
Proof.
  intros Hsrc. unfold synthesize_speech.
  cbn [with_accent text voice_id accent speed]. rewrite Hsrc.
  apply same_but_accent_bind. intros _ w0.
  apply same_but_accent_bind. intros [se|] w1; [|apply same_but_accent_refl].
  apply same_but_accent_try.
  repeat (apply same_but_accent_bind; intros ? ?).
  apply same_but_accent_insert. reflexivity.
Qed.

(** C8: for an accent code outside the table the lookup yields
    [en-newest.pth]; the request then runs exactly as the same request with
    the code [en-newest] (same response, same files, same calls, same rows
    but for the accent column), so no failure is due to the code; and a
    successful request has loaded the default embedding. *)
Theorem unknown_accent_falls_back (CHECKPOINT_DIR : path) :
  (forall a,
     ACCENT_TO_SES_FILE !! a = None ->
     ses_file a = "en-newest.pth" /\
     source_se_path CHECKPOINT_DIR a =
       CHECKPOINT_DIR ++ ["base_speakers"; "ses"; "en-newest.pth"]) /\
  (forall E q w,
     ACCENT_TO_SES_FILE !! accent q = None ->
     same_but_accent (synthesize_speech CHECKPOINT_DIR E q w)
                     (synthesize_speech CHECKPOINT_DIR E (with_accent "en-newest" q) w)) /\
  (forall E q w p w',
     ACCENT_TO_SES_FILE !! accent q = None ->
     synthesize_speech CHECKPOINT_DIR E q w = (Ok p, w') ->
     exists v model,
       calls w' =
         calls w ++
         [ TorchLoad (vm_se_file_path v);
           BaseSpeakerTTS (fst (selected_base CHECKPOINT_DIR (fs w)));
           LoadCkpt (snd (selected_base CHECKPOINT_DIR (fs w)));
           TorchLoad (CHECKPOINT_DIR ++ ["base_speakers"; "ses"; "en-newest.pth"]);
           TTS (text q) (speaker_key model) "English" (speed q);
           Convert [AUDIO_DIR; uuid4 E +:+ ".wav"] "@MyShell" ]).
Proof.
  split; [|split].
  - intros a H. unfold source_se_path, ses_file. rewrite H. split; reflexivity.
  - intros E q w H. apply synthesize_speech_accent_only.
    apply source_se_path_default. exact H.
  - intros E q w p w' Hnone H.
    destruct (synthesize_speech_ok_calls _ _ _ _ _ _ H) as (v & model & _ & ->).
    rewrite (source_se_path_default _ _ Hnone). eauto.
Qed.

Lemma unknown_accent_falls_back_witness :
  ACCENT_TO_SES_FILE !! accent sample_request = None /\
  exists v model,
    calls (snd (synthesize_speech ["checkpoints_v2"] later_env sample_request uploaded)) =
      calls uploaded ++
      [ TorchLoad (vm_se_file_path v);
        BaseSpeakerTTS ["checkpoints"; "base_speakers"; "EN"; "config.json"];
        LoadCkpt ["checkpoints"; "base_speakers"; "EN"; "checkpoint.pth"];
        TorchLoad ["checkpoints_v2"; "base_speakers"; "ses"; "en-newest.pth"];
        TTS "Hello" (speaker_key model) "English" PrimFloat.one;
        Convert [AUDIO_DIR; uuid4 later_env +:+ ".wav"] "@MyShell" ].
Proof.
  split; [reflexivity|].
  apply (proj2 (proj2 (unknown_accent_falls_back ["checkpoints_v2"]))
           later_env sample_request uploaded
           (SynthOk (uuid4 later_env) (voice_id sample_request) (text sample_request)
              [AUDIO_DIR; uuid4 later_env +:+ ".wav"] "Speech synthesized successfully")).
  - reflexivity.
  - vm_compute. reflexivity.
Defined.

(** * Further properties *)

(** ** More on writing and removing *)

Lemma put_resolve_below (p q : path) (f x f' : node) :
  p <> [] -> put f p x = Some f' -> resolve f' (p ++ q) = resolve x q.
Proof.
  intros Hne Hp. rewrite resolve_app, (put_resolve _ _ _ _ Hne Hp). reflexivity.
Qed.

(** A write below one name of a directory leaves every other name of that
    directory, and all below it, as it was. *)
Lemma put_resolve_other (d : path) (a b : string) (r q : path) :
  forall f x f', a <> b -> put f (d ++ a :: r) x = Some f' ->
    resolve f' (d ++ b :: q) = resolve f (d ++ b :: q).
Proof.
  induction d as [|c d IH]; intros f x f' Hab.
  - destruct f as [y|es]; [destruct r; discriminate|].
    cbn [app]. destruct r as [|c' r].
    + cbn [put]. intros [= <-]. cbn [resolve].
      rewrite (assoc_assoc_set_ne _ _ _ _ Hab). reflexivity.
    + rewrite put_cons by discriminate.
      destruct (assoc a es) as [n'|]; [|discriminate].
      destruct (put n' (c' :: r) x) as [n''|]; [|discriminate].
      intros [= <-]. cbn [resolve].
      rewrite (assoc_assoc_set_ne _ _ _ _ Hab). reflexivity.
  - destruct f as [y|es]; [discriminate|].
    rewrite <- !app_comm_cons, put_cons by (destruct d; discriminate).
    destruct (assoc c es) as [n'|] eqn:Hc; [|discriminate].
    destruct (put n' (d ++ a :: r) x) as [n''|] eqn:Hp; [|discriminate].
    intros [= <-]. cbn [resolve]. rewrite assoc_assoc_set, Hc.
    apply (IH _ _ _ Hab Hp).
Qed.

Lemma remove_resolve_other (d : path) (a b : string) (q : path) :
  forall f f', a <> b -> remove f (d ++ [a]) = Some f' ->
    resolve f' (d ++ b :: q) = resolve f (d ++ b :: q).
Proof.
  induction d as [|c d IH]; intros f f' Hab.
  - destruct f as [y|es]; simpl; [discriminate|].
    destruct (assoc a es); [|discriminate].
    intros [= <-]. simpl. rewrite (assoc_assoc_del_ne _ _ _ Hab). reflexivity.
  - destruct f as [y|es]; [discriminate|].
    rewrite <- !app_comm_cons, (remove_cons _ _ _ (snoc_not_nil d a)).
    destruct (assoc c es) as [n'|] eqn:Hc; [|discriminate].
    destruct (remove n' (d ++ [a])) as [n''|] eqn:Hp; [|discriminate].
    intros [= <-]. cbn [resolve]. rewrite assoc_assoc_set, Hc.
    apply (IH _ _ Hab Hp).
Qed.

(** A write into an existing directory succeeds and keeps it a directory. *)
Lemma put_defined (d : path) (a : string) :
  forall f x, isdir f d = true -> exists f', put f (d ++ [a]) x = Some f'.
Proof.
  unfold isdir. induction d as [|c d IH]; intros f x.
  - destruct f as [y|es]; [discriminate|]. intros _. cbn. eauto.
  - destruct f as [y|es]; [discriminate|]. cbn [resolve].
    rewrite <- app_comm_cons, (put_cons _ _ _ _ (snoc_not_nil d a)).
    destruct (assoc c es) as [n'|]; [|discriminate].
    intros H. destruct (IH n' x H) as [n'' ->]. eauto.
Qed.

Lemma put_isdir_parent (d : path) (a : string) :
  forall f x f', put f (d ++ [a]) x = Some f' -> isdir f' d = true.
Proof.
  unfold isdir. induction d as [|c d IH]; intros f x f'.
  - destruct f as [y|es]; [discriminate|]. cbn. intros [= <-]. reflexivity.
  - destruct f as [y|es]; [discriminate|].
    rewrite <- app_comm_cons, (put_cons _ _ _ _ (snoc_not_nil d a)).
    destruct (assoc c es) as [n'|]; [|discriminate].
    destruct (put n' (d ++ [a]) x) as [n''|] eqn:Hp; [|discriminate].
    intros [= <-]. cbn [resolve]. rewrite assoc_assoc_set. apply (IH _ _ _ Hp).
Qed.

Lemma assoc_in_fst {A} (k : string) (l : list (string * A)) :
  In k (map fst l) <-> exists v, assoc k l = Some v.
Proof.
  induction l as [|[k' v'] l IH]; cbn.
  - split; [intros []|intros [v H]; discriminate].
  - destruct (String.eqb_spec k k') as [->|Hne].
    + split; eauto.
    + rewrite <- IH. split; [intros [H|H]; [congruence|exact H]|auto].
Qed.

(** ** The merge loop *)

Lemma isdir_path_exists (f : node) (p : path) : isdir f p = true -> path_exists f p = true.
Proof. unfold isdir, path_exists. destruct (resolve f p) as [[?|?]|]; congruence. Qed.

(** What a successful move did: one write at or below the destination name,
    one removal of the source name. *)
Lemma shutil_move_inv (fs tmp : node) (root target : path) (item : string)
    (fs' tmp' : node) :
  shutil_move fs tmp (root ++ [item]) (target ++ [item]) = Some (fs', tmp') ->
  exists x r,
    resolve tmp (root ++ [item]) = Some x /\
    put fs (target ++ item :: r) x = Some fs' /\
    remove tmp (root ++ [item]) = Some tmp'.
Proof.
  unfold shutil_move. rewrite last_snoc.
  destruct (resolve tmp (root ++ [item])) as [x|]; [|discriminate].
  destruct (isdir fs (target ++ [item])) eqn:Hd.
  - rewrite <- app_assoc. cbn [app andb].
    destruct (path_exists fs (target ++ [item; item])); [discriminate|].
    destruct x as [data|es]; cbn iota;
      destruct (put fs (target ++ [item; item]) _) as [f1|] eqn:Hp; try discriminate;
      destruct (remove tmp (root ++ [item])) as [t1|]; try discriminate;
      intros [= <- <-]; eexists _, [item]; eauto.
  - cbn [andb].
    destruct (match x with File _ => false | Dir _ => _ end); [discriminate|].
    destruct (put fs (target ++ [item]) x) as [f1|] eqn:Hp; [|discriminate].
    destruct (remove tmp (root ++ [item])) as [t1|]; [|discriminate].
    intros [= <- <-]. exists x, []. eauto.
Qed.

(** The merge leaves alone every entry of the target that the candidate
    root holds as a directory, or that the loop does not visit. *)
Lemma merge_items_keeps_existing (root target : path) (c : string) (q : path) :
  forall items fs tmp,
    path_exists fs (target ++ [c]) = true ->
    isdir tmp (root ++ [c]) = true \/ ~ In c items ->
    resolve (snd (merge_items root target items fs tmp)) (target ++ c :: q) =
    resolve fs (target ++ c :: q).
Proof.
  assert (forall fs tmp item fs' tmp',
            item <> c ->
            shutil_move fs tmp (root ++ [item]) (target ++ [item]) = Some (fs', tmp') ->
            (forall q', resolve fs' (target ++ c :: q') = resolve fs (target ++ c :: q')) /\
            resolve tmp' (root ++ [c]) = resolve tmp (root ++ [c])) as Hmove.
  { intros fs tmp item fs' tmp' Hne Hm.
    apply shutil_move_inv in Hm. destruct Hm as (x & r & _ & Hput & Hrem). split.
    - intros q'. apply (put_resolve_other _ _ _ _ _ _ _ _ Hne Hput).
    - apply (remove_resolve_other _ _ _ [] _ _ Hne Hrem). }
  induction items as [|item rest IH]; intros fs tmp Hex Hc; [reflexivity|].
  cbn [merge_items].
  destruct (String.eqb_spec item c) as [->|Hne].
  - destruct Hc as [Hd|Hn]; [|destruct Hn; left; reflexivity].
    rewrite Hd, Hex. cbn [negb]. apply IH; [exact Hex|left; exact Hd].
  - assert (isdir tmp (root ++ [c]) = true \/ ~ In c rest) as Hc'.
    { destruct Hc as [Hd|Hn]; [left; exact Hd|right; intros H; apply Hn; right; exact H]. }
    assert (forall fs' tmp',
              shutil_move fs tmp (root ++ [item]) (target ++ [item]) = Some (fs', tmp') ->
              resolve (snd (merge_items root target rest fs' tmp')) (target ++ c :: q) =
              resolve fs (target ++ c :: q)) as Hstep.
    { intros fs' tmp' Hm. destruct (Hmove _ _ _ _ _ Hne Hm) as [Hfs Htmp].
      rewrite IH.
      - apply Hfs.
      - unfold path_exists. rewrite (Hfs []). exact Hex.
      - destruct Hc' as [Hd|Hn]; [left|right; exact Hn].
        unfold isdir. rewrite Htmp. exact Hd. }
    destruct (isdir tmp (root ++ [item])).
    + destruct (negb (path_exists fs (target ++ [item]))).
      * destruct (shutil_move fs tmp _ _) as [[fs' tmp']|] eqn:Hm; [|reflexivity].
        apply (Hstep _ _ eq_refl).
      * apply IH; assumption.
    + destruct (shutil_move fs tmp _ _) as [[fs' tmp']|] eqn:Hm; [|reflexivity].
      apply (Hstep _ _ eq_refl).
Qed.

(** On a target directory that holds none of the names, the merge moves
    every entry of the candidate root and succeeds. *)
Lemma merge_items_fresh (root target : path) :
  forall items fs tmp,
    NoDup items ->
    isdir fs target = true ->
    (forall i, In i items -> resolve fs (target ++ [i]) = None) ->
    (forall i, In i items -> exists x, resolve tmp (root ++ [i]) = Some x) ->
    exists fs',
      merge_items root target items fs tmp = (Ok tt, fs') /\
      isdir fs' target = true /\
      (forall i q, In i items ->
         resolve fs' (target ++ i :: q) = resolve tmp (root ++ i :: q)) /\
      (forall i q, ~ In i items ->
         resolve fs' (target ++ i :: q) = resolve fs (target ++ i :: q)).
Proof.
  induction items as [|item rest IH]; intros fs tmp Hnd Hdir Hfree Hsrc.
  { exists fs. repeat split; [exact Hdir|intros i q []]. }
  apply NoDup_cons in Hnd. destruct Hnd as [Hnotin Hnd].
  destruct (Hsrc item (or_introl eq_refl)) as [x Hx].
  pose proof (Hfree item (or_introl eq_refl)) as Hnone.
  destruct (put_defined target item fs x Hdir) as [fs1 Hput].
  destruct (remove_defined (root ++ [item]) tmp x (snoc_not_nil _ _) Hx) as [tmp1 Hrem].
  assert (shutil_move fs tmp (root ++ [item]) (target ++ [item]) = Some (fs1, tmp1)) as Hm.
  { assert (isdir fs (target ++ [item]) = false) as Hd
      by (unfold isdir; rewrite Hnone; reflexivity).
    assert (path_exists fs (target ++ [item]) = false) as He
      by (unfold path_exists; rewrite Hnone; reflexivity).
    unfold shutil_move. rewrite last_snoc, Hx, Hd. cbn [andb]. rewrite He.
    destruct x; rewrite Hput, Hrem; reflexivity. }
  assert (forall i, In i rest -> i <> item) as Hdiff.
  { intros i Hi ->. apply Hnotin. apply list_elem_of_In. exact Hi. }
  destruct (IH fs1 tmp1) as (fs' & Hrun & Hdir' & Hin & Hout).
  - exact Hnd.
  - apply (put_isdir_parent _ _ _ _ _ Hput).
  - intros i Hi.
    rewrite (put_resolve_other target item i [] [] fs x fs1); [|auto using Hdiff|exact Hput].
    + apply Hfree. right. exact Hi.
    + intros Heq. apply (Hdiff i Hi). congruence.
  - intros i Hi.
    rewrite (remove_resolve_other root item i [] tmp tmp1); [|auto|exact Hrem].
    + apply Hsrc. right. exact Hi.
    + intros Heq. apply (Hdiff i Hi). congruence.
  - exists fs'. split; [|split; [exact Hdir'|split]].
    + cbn [merge_items]. unfold path_exists.
      rewrite Hnone. cbn [negb]. rewrite Hm.
      destruct (isdir tmp (root ++ [item])); exact Hrun.
    + intros i q [<-|Hi].
      * rewrite Hout by (rewrite <- list_elem_of_In; exact Hnotin).
        replace (target ++ item :: q) with ((target ++ [item]) ++ q)
          by (rewrite <- app_assoc; reflexivity).
        rewrite (put_resolve_below _ _ _ _ _ (snoc_not_nil _ _) Hput).
        replace (root ++ item :: q) with ((root ++ [item]) ++ q)
          by (rewrite <- app_assoc; reflexivity).
        rewrite resolve_app, Hx. reflexivity.
      * rewrite (Hin i q Hi).
        apply (remove_resolve_other root item i q tmp tmp1); [|exact Hrem].
        intros Heq. apply (Hdiff i Hi). congruence.
    + intros i q Hi.
      rewrite Hout by (intros H; apply Hi; right; exact H).
      apply (put_resolve_other target item i [] q fs x fs1); [|exact Hput].
      intros Heq. apply Hi. left. exact Heq.
Qed.

(** ** Bootstrap, beyond the required paths *)

Lemma listdir_entries (tmp : node) (root : path) (items : list string) (i : string) (q : path) :
  listdir tmp root = Some items ->
  (In i items -> exists x, resolve tmp (root ++ [i]) = Some x) /\
  (~ In i items -> resolve tmp (root ++ i :: q) = None).
Proof.
  unfold listdir. rewrite !resolve_app.
  destruct (resolve tmp root) as [[data|es]|]; try discriminate.
  intros [= <-]. cbn [resolve]. rewrite assoc_in_fst. split.
  - intros [v ->]. eauto.
  - intros H. destruct (assoc i es) as [v|]; [destruct H; eauto|reflexivity].
Qed.

Lemma candidate_root_isdir (markers : node -> path -> bool) (tmp : node) (root : path) :
  (forall p, markers tmp p = true -> isdir tmp p = true) ->
  candidate_root markers tmp = Some root -> exists items, listdir tmp root = Some items.
Proof.
  intros Hm H. unfold candidate_root in H. apply find_some in H. destruct H as [_ H].
  apply Hm in H. unfold isdir in H. unfold listdir.
  destruct (resolve tmp root) as [[?|es]|]; try discriminate. eauto.
Qed.

Lemma has_markers_isdir (tmp : node) (p : path) :
  has_markers tmp p = true -> isdir tmp p = true.
Proof.
  unfold has_markers. intros H. apply andb_prop in H. destruct H as [H _].
  apply (path_exists_below_isdir _ _ _ _ H).
Qed.

Lemma has_markers_v1_isdir (tmp : node) (p : path) :
  has_markers_v1 tmp p = true -> isdir tmp p = true.
Proof.
  unfold has_markers_v1. intros H. apply andb_prop in H. destruct H as [H _].
  apply (path_exists_below_isdir _ _ _ _ H).
Qed.

(** The branch of both bootstrap functions that merges, on a target that
    [os.makedirs] found or made empty. *)
Lemma install_fresh (root target : path) (es : list (string * node)) (fs1 : node)
    (items : list string) :
  resolve fs1 target = Some (Dir []) ->
  listdir (Dir es) root = Some items ->
  NoDup items ->
  exists fs',
    merge_items root target items fs1 (Dir es) = (Ok tt, fs') /\
    forall i q, resolve fs' (target ++ i :: q) = resolve (Dir es) (root ++ i :: q).
Proof.
  intros Hempty Hls Hnd.
  destruct (merge_items_fresh root target items fs1 (Dir es)) as (fs' & Hrun & _ & Hin & Hout).
  - exact Hnd.
  - unfold isdir. rewrite Hempty. reflexivity.
  - intros i _. rewrite resolve_app, Hempty. reflexivity.
  - intros i Hi. apply (proj1 (listdir_entries _ _ _ i [] Hls) Hi).
  - exists fs'. split; [exact Hrun|]. intros i q.
    destruct (In_dec string_dec i items) as [Hi|Hi]; [apply Hin; exact Hi|].
    rewrite (Hout i q Hi), (proj2 (listdir_entries _ _ _ i q Hls) Hi).
    rewrite resolve_app, Hempty. reflexivity.
Qed.

Lemma empty_target_nothing_below (fs : node) (d : path) (c : string) (q : path) :
  resolve fs d = None \/ resolve fs d = Some (Dir []) ->
  path_exists fs (d ++ c :: q) = false.
Proof.
  intros H. unfold path_exists. rewrite resolve_app. destruct H as [->| ->]; reflexivity.
Qed.

(** ** What the archive and the working tree have to be *)

Lemma nodupb_NoDup (l : list string) : nodupb l = true -> NoDup l.
Proof.
  induction l as [|x l IH]; cbn [nodupb]; intros H; [constructor|].
  apply andb_prop in H. destruct H as [Hx Hl].
  apply NoDup_cons. split; [|apply IH; exact Hl].
  rewrite list_elem_of_In. intros Hin.
  apply negb_true_iff in Hx.
  assert (existsb (String.eqb x) l = true) as He.
  { apply existsb_exists. exists x. split; [exact Hin|apply String.eqb_refl]. }
  congruence.
Qed.

Lemma distinct_names_entry (c : string) (es : list (string * node)) (n' : node) :
  distinct_names (Dir es) = true -> assoc c es = Some n' -> distinct_names n' = true.
Proof.
  intros H. cbn [distinct_names] in H. apply andb_prop in H. destruct H as [_ H].
  revert H. induction es as [|[k v] es IH]; cbn [assoc]; [discriminate|].
  intros H Ha. apply andb_prop in H. destruct H as [H1 H2].
  destruct (String.eqb c k); [injection Ha as <-; exact H1|apply IH; assumption].
Qed.

Lemma distinct_names_listdir (p : path) :
  forall n items, distinct_names n = true -> listdir n p = Some items -> NoDup items.
Proof.
  unfold listdir. induction p as [|c p IH]; intros n items Hn.
  - cbn [resolve]. destruct n as [x|es]; [discriminate|]. intros [= <-].
    cbn [distinct_names] in Hn. apply andb_prop in Hn. destruct Hn as [Hn _].
    apply nodupb_NoDup. exact Hn.
  - cbn [resolve]. destruct n as [x|es]; [discriminate|].
    destruct (assoc c es) as [n'|] eqn:Ha; [|discriminate].
    apply IH. apply (distinct_names_entry _ _ _ Hn Ha).
Qed.

(** [os.makedirs] goes through when no component of the path is a
    regular file. *)
Lemma makedirs_defined (p : path) :
  forall fs, (forall d r, p = d ++ r -> isfile fs d = false) ->
    exists fs1, makedirs fs p = Some fs1.
Proof.
  induction p as [|c p IH]; intros fs H.
  - destruct fs as [x|es]; [specialize (H [] [] eq_refl); discriminate|].
    cbn. eauto.
  - destruct fs as [x|es]; [specialize (H [] (c :: p) eq_refl); discriminate|].
    cbn [makedirs].
    destruct (IH (match assoc c es with Some n' => n' | None => Dir [] end))
      as [n'' ->]; [|eauto].
    intros d r ->. specialize (H (c :: d) r eq_refl).
    unfold isfile in *. cbn [resolve] in H.
    destruct (assoc c es) as [n'|]; [exact H|]. destruct d; reflexivity.
Qed.

Lemma makedirs_below (d q : path) (fs fs1 : node) :
  makedirs fs d = Some fs1 ->
  resolve fs1 (d ++ q) = resolve (default (Dir []) (resolve fs d)) q.
Proof.
  intros H. rewrite resolve_app, (makedirs_resolve _ _ _ H). reflexivity.
Qed.

(** The scan finds a directory as soon as one passes the test, and it
    finds the first of the walk. *)
Lemma candidate_root_found (markers : node -> path -> bool) (tmp : node) (p : path) :
  isdir tmp p = true -> markers tmp p = true ->
  exists r before after,
    candidate_root markers tmp = Some r /\
    walk tmp [] = before ++ r :: after /\
    markers tmp r = true /\
    Forall (fun p' => markers tmp p' = false) before.
Proof.
  intros Hd Hm. unfold candidate_root.
  destruct (find (markers tmp) (walk tmp [])) as [r|] eqn:Hf.
  - destruct (find_first _ _ _ Hf) as (b & a & H1 & H2 & H3). exists r, b, a. auto.
  - rewrite (find_none _ _ Hf p (walk_complete p tmp [] Hd)) in Hm. discriminate.
Qed.

(** A move to a name that is not taken writes the source there. *)
Lemma shutil_move_absent (fs tmp : node) (root target : path) (item : string)
    (fs' tmp' : node) :
  path_exists fs (target ++ [item]) = false ->
  shutil_move fs tmp (root ++ [item]) (target ++ [item]) = Some (fs', tmp') ->
  exists x,
    resolve tmp (root ++ [item]) = Some x /\
    put fs (target ++ [item]) x = Some fs' /\
    remove tmp (root ++ [item]) = Some tmp'.
Proof.
  intros Hne. unfold shutil_move. rewrite last_snoc.
  destruct (resolve tmp (root ++ [item])) as [x|]; [|discriminate].
  assert (isdir fs (target ++ [item]) = false) as Hd.
  { unfold isdir, path_exists in *. destruct (resolve fs _); [discriminate|reflexivity]. }
  rewrite Hd. cbn [andb]. rewrite Hne.
  replace (match x with File _ => false | Dir _ => false end) with false
    by (destruct x; reflexivity).
  destruct (put fs (target ++ [item]) x) as [f1|] eqn:Hp; [|discriminate].
  destruct (remove tmp (root ++ [item])) as [t1|]; [|discriminate].
  intros [= <- <-]. exists x. repeat split. exact Hp.
Qed.

(** When the merge returns normally, every entry of the candidate root
    whose name was not taken in the target is there afterwards, as the
    archive has it. *)
Lemma merge_items_moves_absent (root target : path) (i : string) (q : path) :
  forall items fs tmp fs',
    NoDup items -> In i items ->
    path_exists fs (target ++ [i]) = false ->
    merge_items root target items fs tmp = (Ok tt, fs') ->
    resolve fs' (target ++ i :: q) = resolve tmp (root ++ i :: q).
Proof.
  induction items as [|item rest IH]; intros fs tmp fs' Hnd Hin Habs; [destruct Hin|].
  apply NoDup_cons in Hnd. destruct Hnd as [Hnotin Hnd].
  rewrite list_elem_of_In in Hnotin.
  cbn [merge_items].
  destruct (String.eqb_spec item i) as [->|Hne].
  - rewrite Habs. cbn [negb].
    assert (forall fs1 tmp1,
              shutil_move fs tmp (root ++ [i]) (target ++ [i]) = Some (fs1, tmp1) ->
              merge_items root target rest fs1 tmp1 = (Ok tt, fs') ->
              resolve fs' (target ++ i :: q) = resolve tmp (root ++ i :: q)) as Hstep.
    { intros fs1 tmp1 Hm Hrun.
      destruct (shutil_move_absent _ _ _ _ _ _ _ Habs Hm) as (x & Hx & Hput & _).
      pose proof (merge_items_keeps_existing root target i q rest fs1 tmp1) as Hk.
      rewrite Hrun in Hk. cbn [snd] in Hk. rewrite Hk.
      - replace (target ++ i :: q) with ((target ++ [i]) ++ q)
          by (rewrite <- app_assoc; reflexivity).
        rewrite (put_resolve_below _ _ _ _ _ (snoc_not_nil _ _) Hput).
        replace (root ++ i :: q) with ((root ++ [i]) ++ q)
          by (rewrite <- app_assoc; reflexivity).
        rewrite resolve_app, Hx. reflexivity.
      - unfold path_exists. rewrite (put_resolve _ _ _ _ (snoc_not_nil _ _) Hput).
        reflexivity.
      - right. exact Hnotin. }
    destruct (isdir tmp (root ++ [i]));
      destruct (shutil_move fs tmp _ _) as [[fs1 tmp1]|] eqn:Hm; try discriminate;
      apply (Hstep _ _ eq_refl).
  - assert (In i rest) as Hrest by (destruct Hin as [Heq|H]; [contradiction|exact H]).
    assert (forall fs1 tmp1,
              shutil_move fs tmp (root ++ [item]) (target ++ [item]) = Some (fs1, tmp1) ->
              merge_items root target rest fs1 tmp1 = (Ok tt, fs') ->
              resolve fs' (target ++ i :: q) = resolve tmp (root ++ i :: q)) as Hstep.
    { intros fs1 tmp1 Hm Hrun.
      apply shutil_move_inv in Hm. destruct Hm as (x & r & _ & Hput & Hrem).
      rewrite (IH fs1 tmp1 fs' Hnd Hrest); [| |exact Hrun].
      - apply (remove_resolve_other _ _ _ q _ _ Hne Hrem).
      - unfold path_exists.
        rewrite (put_resolve_other target item i r [] _ _ _ Hne Hput). exact Habs. }
    destruct (isdir tmp (root ++ [item])).
    + destruct (negb (path_exists fs (target ++ [item]))).
      * destruct (shutil_move fs tmp _ _) as [[fs1 tmp1]|] eqn:Hm; [|discriminate].
        apply (Hstep _ _ eq_refl).
      * apply IH; assumption.
    + destruct (shutil_move fs tmp _ _) as [[fs1 tmp1]|] eqn:Hm; [|discriminate].
      apply (Hstep _ _ eq_refl).
Qed.

(** C3: the scan visits every directory of the extracted archive.  As
    soon as one of them holds both marker files, the first such directory
    of the walk is chosen and the merge reads from it: every entry of it
    whose name is not taken in the target is in the target after a normal
    return, as the archive has it.  When no directory holds both,
    [ensure_checkpoints] raises and the target directory is as
    [os.makedirs] left it: as it was when it existed, empty when it did
    not. *)
Theorem ensure_checkpoints_marker_scan
    (checkpoint_dir : path) (es : list (string * node)) (fs : node) :
  forallb (path_exists fs) (required_paths checkpoint_dir) = false ->
  (forall p, isdir (Dir es) p = true -> In p (walk (Dir es) [])) /\
  (forall p, has_markers (Dir es) p = true ->
     exists r before after items,
       candidate_root has_markers (Dir es) = Some r /\
       walk (Dir es) [] = before ++ r :: after /\
       has_markers (Dir es) r = true /\
       Forall (fun p' => has_markers (Dir es) p' = false) before /\
       listdir (Dir es) r = Some items /\
       ensure_checkpoints checkpoint_dir (Archive es) fs =
         match makedirs fs checkpoint_dir with
         | Some fs1 => merge_items r checkpoint_dir items fs1 (Dir es)
         | None => (Raise (OSError "File exists"), fs)
         end /\
       (distinct_names (Dir es) = true ->
        forall fs',
          ensure_checkpoints checkpoint_dir (Archive es) fs = (Ok tt, fs') ->
          forall i q,
            In i items ->
            path_exists fs (checkpoint_dir ++ [i]) = false ->
            resolve fs' (checkpoint_dir ++ i :: q) = resolve (Dir es) (r ++ i :: q))) /\
  ((forall p, isdir (Dir es) p = true -> has_markers (Dir es) p = false) ->
     ensure_checkpoints checkpoint_dir (Archive es) fs =
       match makedirs fs checkpoint_dir with
       | Some fs1 =>
           (Raise (RuntimeError
              "Downloaded checkpoints archive does not contain expected structure"),
            fs1)
       | None => (Raise (OSError "File exists"), fs)
       end /\
     (forall fs1, makedirs fs checkpoint_dir = Some fs1 ->
        resolve fs1 checkpoint_dir =
        Some (default (Dir []) (resolve fs checkpoint_dir)))).
Proof.
  intros Hmissing. split; [|split].
  - intros p Hp. apply (walk_complete p (Dir es) []). exact Hp.
  - intros p Hp.
    destruct (candidate_root_found has_markers (Dir es) p (has_markers_isdir _ _ Hp) Hp)
      as (r & before & after & Hr & Hw & Hm & Hb).
    destruct (candidate_root_isdir has_markers (Dir es) r (has_markers_isdir (Dir es)) Hr)
      as [items Hls].
    assert (ensure_checkpoints checkpoint_dir (Archive es) fs =
            match makedirs fs checkpoint_dir with
            | Some fs1 => merge_items r checkpoint_dir items fs1 (Dir es)
            | None => (Raise (OSError "File exists"), fs)
            end) as Hrun.
    { unfold ensure_checkpoints. rewrite Hmissing.
      destruct (makedirs fs checkpoint_dir); [|reflexivity].
      rewrite Hr, Hls. reflexivity. }
    exists r, before, after, items. repeat (split; [assumption|]).
    intros Hdn fs' Hok i q Hi Habs. rewrite Hrun in Hok.
    destruct (makedirs fs checkpoint_dir) as [fs1|] eqn:Hmk; [|discriminate].
    apply (merge_items_moves_absent r checkpoint_dir i q items fs1 (Dir es) fs').
    + apply (distinct_names_listdir r (Dir es) items Hdn Hls).
    + exact Hi.
    + unfold path_exists in *.
      rewrite (makedirs_below checkpoint_dir [i] _ _ Hmk).
      rewrite resolve_app in Habs.
      destruct (resolve fs checkpoint_dir) as [n|]; [exact Habs|reflexivity].
    + exact Hok.
  - intros Hnone. split.
    + unfold ensure_checkpoints. rewrite Hmissing.
      destruct (makedirs fs checkpoint_dir); [|reflexivity].
      apply candidate_root_none in Hnone. rewrite Hnone. reflexivity.
    + intros fs1. apply makedirs_resolve.
Qed.

Lemma ensure_checkpoints_marker_scan_witness :
  forallb (path_exists partial_tree) (required_paths ["checkpoints_v2"]) = false /\
  (exists fs',
     candidate_root has_markers (Dir release_archive) = Some ["checkpoints_v2"] /\
     ensure_checkpoints ["checkpoints_v2"] (Archive release_archive) partial_tree =
       (Ok tt, fs') /\
     resolve fs' ["checkpoints_v2"; "base_speakers"; "ses"; "en-newest.pth"] =
       Some (File "se")) /\
  ensure_checkpoints ["checkpoints_v2"] (Archive unrelated_archive) partial_tree =
    (Raise (RuntimeError
       "Downloaded checkpoints archive does not contain expected structure"),
     partial_tree).
Proof.
  split; [reflexivity|].
  destruct (ensure_checkpoints_marker_scan ["checkpoints_v2"] release_archive partial_tree
              eq_refl) as (_ & Hfound & _).
  destruct (ensure_checkpoints_marker_scan ["checkpoints_v2"] unrelated_archive partial_tree
              eq_refl) as (_ & _ & Hnone).
  split.
  - destruct (Hfound ["checkpoints_v2"] eq_refl)
      as (r & before & after & items & Hr & _ & _ & _ & Hls & Hrun & Hin).
    assert (r = ["checkpoints_v2"]) as -> by (vm_compute in Hr; congruence).
    assert (items = ["converter"; "base_speakers"]) as ->
      by (vm_compute in Hls; congruence).
    eexists. split; [exact Hr|]. split; [rewrite Hrun; reflexivity|].
    apply (Hin eq_refl _ (eq_trans Hrun eq_refl) "base_speakers" ["ses"; "en-newest.pth"]).
    + right. left. reflexivity.
    + reflexivity.
  - apply Hnone. apply candidate_root_none. reflexivity.
Defined.

(** X1: on a checkpoint directory that is missing or empty, with no
    regular file on the way to it, [ensure_checkpoints] succeeds as soon
    as the archive (a tree in which no directory lists a name twice) has a
    directory with both marker files: afterwards the checkpoint directory
    holds exactly what the chosen directory held, so the two converter
    files exist, and the embedding [en-newest.pth] exists exactly when the
    archive has it there. *)
Theorem ensure_checkpoints_fresh_target
    (checkpoint_dir : path) (es : list (string * node)) (fs : node) (p : path) :
  resolve fs checkpoint_dir = None \/ resolve fs checkpoint_dir = Some (Dir []) ->
  (forall d r, checkpoint_dir = d ++ r -> isfile fs d = false) ->
  has_markers (Dir es) p = true ->
  distinct_names (Dir es) = true ->
  exists fs' root,
    ensure_checkpoints checkpoint_dir (Archive es) fs = (Ok tt, fs') /\
    candidate_root has_markers (Dir es) = Some root /\
    has_markers (Dir es) root = true /\
    (forall i q,
       resolve fs' (checkpoint_dir ++ i :: q) = resolve (Dir es) (root ++ i :: q)) /\
    path_exists fs' (checkpoint_dir ++ ["converter"; "config.json"]) = true /\
    path_exists fs' (checkpoint_dir ++ ["converter"; "checkpoint.pth"]) = true /\
    path_exists fs' (checkpoint_dir ++ ["base_speakers"; "ses"; "en-newest.pth"]) =
    path_exists (Dir es) (root ++ ["base_speakers"; "ses"; "en-newest.pth"]).
Proof.
  intros Hempty Hway Hp Hdn.
  destruct (makedirs_defined checkpoint_dir fs Hway) as [fs1 Hmk].
  destruct (candidate_root_found has_markers (Dir es) p (has_markers_isdir _ _ Hp) Hp)
    as (root & _ & _ & Hroot & _ & Hm & _).
  destruct (candidate_root_isdir has_markers (Dir es) root (has_markers_isdir (Dir es)) Hroot)
    as [items Hls].
  pose proof (distinct_names_listdir root (Dir es) items Hdn Hls) as Hnd.
  assert (resolve fs1 checkpoint_dir = Some (Dir [])) as Hfs1.
  { rewrite (makedirs_resolve _ _ _ Hmk). destruct Hempty as [->| ->]; reflexivity. }
  destruct (install_fresh root checkpoint_dir es fs1 items Hfs1 Hls Hnd) as (fs' & Hrun & Hall).
  exists fs', root. split; [|split; [exact Hroot|split; [exact Hm|split; [exact Hall|]]]].
  - unfold ensure_checkpoints, required_paths. cbn [forallb].
    rewrite (empty_target_nothing_below _ _ _ _ Hempty). cbn [andb].
    rewrite Hmk, Hroot, Hls. exact Hrun.
  - unfold has_markers in Hm. apply andb_prop in Hm. destruct Hm as [Hm1 Hm2].
    unfold path_exists in *. rewrite !Hall. repeat split; assumption.
Qed.

Lemma ensure_checkpoints_fresh_target_witness :
  resolve (Dir []) ["checkpoints_v2"] = None /\
  has_markers (Dir release_archive) ["checkpoints_v2"] = true /\
  distinct_names (Dir release_archive) = true /\
  exists fs',
    ensure_checkpoints ["checkpoints_v2"] (Archive release_archive) (Dir []) = (Ok tt, fs') /\
    path_exists fs' (["checkpoints_v2"] ++ ["converter"; "checkpoint.pth"]) = true.
Proof.
  repeat (split; [reflexivity|]).
  destruct (ensure_checkpoints_fresh_target ["checkpoints_v2"] release_archive (Dir [])
              ["checkpoints_v2"]) as (fs' & root & H1 & _ & _ & _ & _ & H2 & _).
  - left. reflexivity.
  - intros d r _. destruct d; reflexivity.
  - reflexivity.
  - reflexivity.
  - exists fs'. split; assumption.
Defined.

Lemma not_isfile_dir_or_unlisted (tmp : node) (root : path) (items : list string) (c : string) :
  listdir tmp root = Some items ->
  isfile tmp (root ++ [c]) = false ->
  isdir tmp (root ++ [c]) = true \/ ~ In c items.
Proof.
  intros Hls Hf.
  destruct (In_dec string_dec c items) as [Hi|Hi]; [left|right; exact Hi].
  destruct (proj1 (listdir_entries _ _ _ c [] Hls) Hi) as [x Hx].
  unfold isfile in Hf. unfold isdir. rewrite Hx in *. destruct x; congruence.
Qed.

(** X2: [ensure_checkpoints] never changes an entry of the checkpoint
    directory that is already there, unless the chosen archive directory
    has a regular file of that name: an existing sub-directory is kept as
    it is, with all below it, whatever the archive holds under that name. *)
Theorem ensure_checkpoints_keeps_existing_entries
    (checkpoint_dir : path) (dl : fetched) (fs : node) (c : string) (q : path) :
  path_exists fs (checkpoint_dir ++ [c]) = true ->
  (forall es root,
     dl = Archive es ->
     candidate_root has_markers (Dir es) = Some root ->
     isfile (Dir es) (root ++ [c]) = false) ->
  resolve (snd (ensure_checkpoints checkpoint_dir dl fs)) (checkpoint_dir ++ c :: q) =
  resolve fs (checkpoint_dir ++ c :: q).
Proof.
  intros Hex Harch. unfold ensure_checkpoints.
  destruct (forallb _ _); [reflexivity|].
  rewrite (makedirs_existing _ _ (path_exists_below_isdir _ _ _ _ Hex)).
  destruct dl as [| |es]; try reflexivity.
  destruct (candidate_root has_markers (Dir es)) as [root|] eqn:Hroot; [|reflexivity].
  destruct (listdir (Dir es) root) as [items|] eqn:Hls; [|reflexivity].
  apply merge_items_keeps_existing; [exact Hex|].
  apply (not_isfile_dir_or_unlisted _ _ _ _ Hls). apply (Harch es root eq_refl Hroot).
Qed.

Lemma ensure_checkpoints_keeps_existing_entries_witness :
  path_exists partial_tree (["checkpoints_v2"] ++ ["converter"]) = true /\
  resolve (snd (ensure_checkpoints ["checkpoints_v2"] (Archive release_archive) partial_tree))
    (["checkpoints_v2"] ++ "converter" :: []) =
  Some (Dir [("config.json", File "{}")]).
Proof.
  split; [reflexivity|].
  rewrite (ensure_checkpoints_keeps_existing_entries ["checkpoints_v2"]
             (Archive release_archive) partial_tree "converter" []).
  - reflexivity.
  - reflexivity.
  - intros es root [= <-] H. vm_compute in H. injection H as <-. reflexivity.
Defined.

(** X3: on a working directory without a [checkpoints] directory (or with
    an empty one), [ensure_base_checkpoints_v1] returns [checkpoints] as
    soon as the archive (a tree in which no directory lists a name twice)
    has a directory with both EN marker files: [checkpoints] then holds
    exactly what the chosen directory held, and both required V1 files
    exist. *)
Theorem ensure_base_checkpoints_v1_fresh_target
    (es : list (string * node)) (fs : node) (p : path) :
  isdir fs [] = true ->
  resolve fs ["checkpoints"] = None \/ resolve fs ["checkpoints"] = Some (Dir []) ->
  has_markers_v1 (Dir es) p = true ->
  distinct_names (Dir es) = true ->
  exists fs' root,
    ensure_base_checkpoints_v1 (Archive es) fs = (Ok ["checkpoints"], fs') /\
    candidate_root has_markers_v1 (Dir es) = Some root /\
    has_markers_v1 (Dir es) root = true /\
    (forall i q,
       resolve fs' (["checkpoints"] ++ i :: q) = resolve (Dir es) (root ++ i :: q)) /\
    path_exists fs' ["checkpoints"; "base_speakers"; "EN"; "config.json"] = true /\
    path_exists fs' ["checkpoints"; "base_speakers"; "EN"; "checkpoint.pth"] = true.
Proof.
  intros Hwd Hempty Hp Hdn.
  destruct (makedirs_defined ["checkpoints"] fs) as [fs1 Hmk].
  { intros d r Hd. unfold isfile, isdir in *.
    destruct d as [|c d].
    - cbn [resolve] in *. destruct fs; [discriminate|reflexivity].
    - destruct d as [|c' d]; [|destruct d; discriminate].
      injection Hd as <- _. destruct Hempty as [->| ->]; reflexivity. }
  destruct (candidate_root_found has_markers_v1 (Dir es) p (has_markers_v1_isdir _ _ Hp) Hp)
    as (root & _ & _ & Hroot & _ & Hm & _).
  destruct (candidate_root_isdir has_markers_v1 (Dir es) root
              (has_markers_v1_isdir (Dir es)) Hroot) as [items Hls].
  pose proof (distinct_names_listdir root (Dir es) items Hdn Hls) as Hnd.
  assert (resolve fs1 ["checkpoints"] = Some (Dir [])) as Hfs1.
  { rewrite (makedirs_resolve _ _ _ Hmk). destruct Hempty as [->| ->]; reflexivity. }
  destruct (install_fresh root ["checkpoints"] es fs1 items Hfs1 Hls Hnd)
    as (fs' & Hrun & Hall).
  exists fs', root. split; [|split; [exact Hroot|split; [exact Hm|split; [exact Hall|]]]].
  - unfold ensure_base_checkpoints_v1, req_files, base_dir in *. cbn [forallb].
    rewrite (empty_target_nothing_below fs ["checkpoints"] _ _ Hempty). cbn [andb].
    rewrite Hmk, Hroot, Hls, Hrun. reflexivity.
  - unfold has_markers_v1 in Hm. apply andb_prop in Hm. destruct Hm as [Hm1 Hm2].
    pose proof (Hall "base_speakers" ["EN"; "config.json"]) as Ha.
    pose proof (Hall "base_speakers" ["EN"; "checkpoint.pth"]) as Hb.
    cbn [app] in Ha, Hb. unfold path_exists in *. rewrite Ha, Hb. split; assumption.
Qed.

Lemma ensure_base_checkpoints_v1_fresh_target_witness :
  isdir served_tree [] = true /\
  resolve served_tree ["checkpoints"] = None /\
  has_markers_v1 (Dir v1_archive) ["checkpoints"] = true /\
  distinct_names (Dir v1_archive) = true /\
  exists fs',
    ensure_base_checkpoints_v1 (Archive v1_archive) served_tree = (Ok ["checkpoints"], fs') /\
    path_exists fs' ["checkpoints"; "base_speakers"; "EN"; "checkpoint.pth"] = true.
Proof.
  repeat (split; [reflexivity|]).
  destruct (ensure_base_checkpoints_v1_fresh_target v1_archive served_tree ["checkpoints"])
    as (fs' & root & H1 & _ & _ & _ & _ & H2).
  - reflexivity.
  - left. reflexivity.
  - reflexivity.
  - reflexivity.
  - exists fs'. split; assumption.
Defined.

(** X4: when both V1 files exist, [ensure_base_checkpoints_v1] returns
    [checkpoints] at once and leaves the working tree as it is, whatever the
    download would have yielded. *)
Theorem ensure_base_checkpoints_v1_present_noop (dl : fetched) (fs : node) :
  path_exists fs ["checkpoints"; "base_speakers"; "EN"; "config.json"] = true ->
  path_exists fs ["checkpoints"; "base_speakers"; "EN"; "checkpoint.pth"] = true ->
  ensure_base_checkpoints_v1 dl fs = (Ok ["checkpoints"], fs).
Proof.
  intros H1 H2. unfold ensure_base_checkpoints_v1, req_files, base_dir. cbn [forallb app].
  rewrite H1, H2. reflexivity.
Qed.

Lemma ensure_base_checkpoints_v1_present_noop_witness :
  path_exists (Dir v1_archive) ["checkpoints"; "base_speakers"; "EN"; "config.json"] = true /\
  path_exists (Dir v1_archive) ["checkpoints"; "base_speakers"; "EN"; "checkpoint.pth"] = true /\
  ensure_base_checkpoints_v1 NotAZip (Dir v1_archive) = (Ok ["checkpoints"], Dir v1_archive).
Proof.
  repeat (split; [reflexivity|]).
  apply (ensure_base_checkpoints_v1_present_noop NotAZip (Dir v1_archive)); reflexivity.
Defined.

Lemma candidate_root_v1_none (tmp : node) :
  candidate_root has_markers_v1 tmp = None <->
  (forall p, isdir tmp p = true -> has_markers_v1 tmp p = false).
Proof.
  unfold candidate_root. split.
  - intros H p Hp.
    apply (find_none _ _ H). apply (walk_complete p tmp []). exact Hp.
  - intros H. destruct (find _ _) as [r|] eqn:Hf; [|reflexivity].
    apply find_some in Hf. destruct Hf as [_ Hr].
    rewrite (H r (has_markers_v1_isdir _ _ Hr)) in Hr. discriminate.
Qed.

(** X5: when a V1 file is missing and no directory of the extracted
    archive holds both [base_speakers/EN/config.json] and
    [base_speakers/EN/checkpoint.pth], [ensure_base_checkpoints_v1] raises
    its [RuntimeError] and the [checkpoints] directory is as [os.makedirs]
    left it: as it was when it existed, empty when it did not. *)
Theorem ensure_base_checkpoints_v1_marker_scan (es : list (string * node)) (fs : node) :
  forallb (path_exists fs) req_files = false ->
  (forall p, isdir (Dir es) p = true -> has_markers_v1 (Dir es) p = false) ->
  ensure_base_checkpoints_v1 (Archive es) fs =
    match makedirs fs ["checkpoints"] with
    | Some fs1 =>
        (Raise (RuntimeError "Downloaded V1 checkpoints archive missing EN base TTS"), fs1)
    | None => (Raise (OSError "File exists"), fs)
    end /\
  (forall fs1, makedirs fs ["checkpoints"] = Some fs1 ->
     resolve fs1 ["checkpoints"] = Some (default (Dir []) (resolve fs ["checkpoints"]))).
Proof.
  intros Hmissing Hnone. split.
  - unfold ensure_base_checkpoints_v1. rewrite Hmissing. unfold base_dir.
    destruct (makedirs fs ["checkpoints"]); [|reflexivity].
    apply candidate_root_v1_none in Hnone. rewrite Hnone. reflexivity.
  - intros fs1. apply makedirs_resolve.
Qed.

Lemma ensure_base_checkpoints_v1_marker_scan_witness :
  forallb (path_exists served_tree) req_files = false /\
  ensure_base_checkpoints_v1 (Archive release_archive) served_tree =
    (Raise (RuntimeError "Downloaded V1 checkpoints archive missing EN base TTS"),
     Dir (("voices", Dir []) :: ("audio_files", Dir []) :: release_archive
          ++ [("checkpoints", Dir [])])).
Proof.
  split; [reflexivity|].
  destruct (ensure_base_checkpoints_v1_marker_scan release_archive served_tree eq_refl)
    as [H _].
  - apply candidate_root_v1_none. reflexivity.
  - exact H.
Defined.

(** ** Outcomes of a synthesize request *)

Lemma fails_clean_bind {A B} (m : M A) (k : A -> M B) :
  keeps m -> (forall a, fails_clean (k a)) -> fails_clean (bind m k).
Proof.
  intros Hm Hk w e w'. unfold bind. specialize (Hm w).
  destruct (m w) as [[a|e1] w1]; cbn [snd] in Hm.
  - intros H. rewrite (Hk a w1 e w' H). exact Hm.
  - intros [= _ <-]. exact Hm.
Qed.

Lemma fails_clean_try_raise {A} (body : M A) (h : exn -> exn) :
  fails_clean body -> fails_clean (try_except body (fun e => raise (h e))).
Proof.
  intros Hb w e w'. unfold try_except, raise.
  destruct (body w) as [[a|e1] w1] eqn:Hw; [discriminate|].
  intros [= _ <-]. apply (Hb w e1 w1 Hw).
Qed.

Lemma fails_clean_insert_generated_audio {A} (E : env) (r : audio_row) (p : A) :
  fails_clean (bind (insert_generated_audio E r) (fun _ => ret p)).
Proof.
  intros w e w'. unfold bind, insert_generated_audio, ret.
  destruct (negb (db_ok E)); [intros [= _ <-]; reflexivity|].
  destruct (existsb _ _); [intros [= _ <-]; reflexivity|discriminate].
Qed.

Lemma fails_clean_insert_voice_model {A} (E : env) (r : voice_row) (p : A) :
  fails_clean (bind (insert_voice_model E r) (fun _ => ret p)).
Proof.
  intros w e w'. unfold bind, insert_voice_model, ret.
  destruct (negb (db_ok E)); [intros [= _ <-]; reflexivity|].
  destruct (existsb _ _); [intros [= _ <-]; reflexivity|discriminate].
Qed.

Ltac fails_clean_prefix :=
  repeat (apply fails_clean_bind; [solve [keeps_auto]| intros ?]).

(** The state a successful synthesize request leaves. *)
Lemma synthesize_speech_ok_state (CHECKPOINT_DIR : path) (E : env) (q : tts_request)
    (w : world) (p : payload) (w' : world) :
  synthesize_speech CHECKPOINT_DIR E q w = (Ok p, w') ->
  p = SynthOk (uuid4 E) (voice_id q) (text q) [AUDIO_DIR; uuid4 E +:+ ".wav"]
        "Speech synthesized successfully" /\
  voice_models w' = voice_models w /\
  generated_audio w' = generated_audio w ++ [new_audio_row E q] /\
  existsb (fun r => String.eqb (ga_id r) (uuid4 E)) (generated_audio w) = false /\
  isfile (fs w') [AUDIO_DIR; uuid4 E +:+ ".wav"] = true /\
  db_ok E = true.
Proof.
  unfold synthesize_speech. intros H.
  apply bind_Ok in H. destruct H as (? & w0 & H0 & H).
  assert (w0 = w /\ db_ok E = true) as [-> Hdb].
  { unfold db_connect in H0. destruct (db_ok E); [|discriminate]. injection H0; auto. }
  apply bind_Ok in H. destruct H as (result & w0 & Hsel & H).
  injection Hsel as <- <-.
  destruct (find _ (voice_models w)) as [v|]; cbn [option_map] in H; [|discriminate].
  apply try_raise_Ok in H.
  repeat match type of H with
  | bind (insert_generated_audio _ _) _ _ = _ => fail 1
  | bind (write_file _ _) _ _ = _ => fail 1
  | bind ?m _ ?w1 = _ =>
      let Hm := fresh "Hm" in
      let Hk := fresh "Hk" in
      pose proof (ltac:(keeps_auto) : keeps m) as Hk;
      apply bind_Ok in H; destruct H as (? & ? & Hm & H);
      specialize (Hk w1); rewrite Hm in Hk; cbn [snd] in Hk
  end.
  apply bind_Ok in H. destruct H as ([] & wa & Hw & H).
  apply bind_Ok in H. destruct H as ([] & wb & Hi & H).
  injection H as <- <-.
  rewrite write_file_eq in Hw.
  destruct (isdir _ _); [discriminate|].
  destruct (put _ _ _) as [f1|] eqn:Hput; [|discriminate].
  injection Hw as <-.
  unfold insert_generated_audio in Hi. rewrite Hdb in Hi. cbn [negb] in Hi.
  cbn [set_fs generated_audio voice_models fs ga_id] in Hi.
  destruct (existsb _ _) eqn:Hdup; [discriminate|].
  injection Hi as <-. cbn [fs voice_models generated_audio].
  match goal with
  | Hp : put (fs ?wl) _ _ = _ |- _ => assert (db wl = db w) as Hdbw by congruence
  end.
  injection Hdbw as Hvm Hga.
  repeat split; try congruence.
  { rewrite Hga. reflexivity. }
  unfold isfile.
  rewrite (put_resolve [AUDIO_DIR; uuid4 E +:+ ".wav"] _ _ _ ltac:(discriminate) Hput).
  reflexivity.
Qed.

Lemma fails_clean_raise {A} (e : exn) : fails_clean (@raise A e).
Proof. intros w e' w' [= _ <-]. reflexivity. Qed.

Lemma fails_clean_synthesize_speech (CHECKPOINT_DIR : path) (E : env) (q : tts_request) :
  fails_clean (synthesize_speech CHECKPOINT_DIR E q).
Proof.
  unfold synthesize_speech.
  apply fails_clean_bind; [solve [keeps_auto]|intros _].
  apply fails_clean_bind; [solve [keeps_auto]|intros [se|]]; [|apply fails_clean_raise].
  apply fails_clean_try_raise. fails_clean_prefix.
  apply fails_clean_insert_generated_audio.
Qed.

Lemma synthesize_speech_status (CHECKPOINT_DIR : path) (E : env) (q : tts_request)
    (w : world) (e : exn) (w' : world) :
  synthesize_speech CHECKPOINT_DIR E q w = (Raise e, w') ->
  status (Raise e : result payload) =
  if db_ok E
  then match find (fun r => String.eqb (vm_id r) (voice_id q)) (voice_models w) with
       | Some _ => 500%Z
       | None => 404%Z
       end
  else 500%Z.
Proof.
  unfold synthesize_speech, bind at 1, db_connect.
  destruct (db_ok E); [|intros [= <- _]; reflexivity].
  unfold ret at 1, bind at 1, select_se_file_path.
  destruct (find _ (voice_models w)) as [v|]; cbn [option_map];
    [|intros [= <- _]; reflexivity].
  unfold try_except, raise.
  match goal with |- (let (_, _) := ?b w in _) = _ -> _ =>
    destruct (b w) as [[a|e1] w1] end; [discriminate|].
  intros [= <- _]. reflexivity.
Qed.

(** X6: a synthesize request either succeeds, and then it has appended
    exactly one row to [generated_audio] that records the request (voice
    id, text, accent, speed, output path) under the audio id it returns,
    with the output file written; or it fails, with status 404 exactly
    when the database is usable and the voice id matches no row, status
    500 otherwise, and both tables as they were. *)
Theorem synthesize_speech_outcome
    (CHECKPOINT_DIR : path) (E : env) (q : tts_request) (w : world)
    (r : result payload) (w' : world) :
  synthesize_speech CHECKPOINT_DIR E q w = (r, w') ->
  voice_models w' = voice_models w /\
  match r with
  | Ok p =>
      p = SynthOk (uuid4 E) (voice_id q) (text q) [AUDIO_DIR; uuid4 E +:+ ".wav"]
            "Speech synthesized successfully" /\
      generated_audio w' = generated_audio w ++ [new_audio_row E q] /\
      isfile (fs w') [AUDIO_DIR; uuid4 E +:+ ".wav"] = true
  | Raise e =>
      generated_audio w' = generated_audio w /\
      status r =
        if db_ok E
        then match find (fun r => String.eqb (vm_id r) (voice_id q)) (voice_models w) with
             | Some _ => 500%Z
             | None => 404%Z
             end
        else 500%Z
  end.
Proof.
  intros H. destruct r as [p|e].
  - destruct (synthesize_speech_ok_state _ _ _ _ _ _ H) as (Hp & Hvm & Hga & _ & Hf & _).
    repeat split; assumption.
  - pose proof (fails_clean_synthesize_speech _ _ _ _ _ _ H) as Hdb.
    injection Hdb as Hvm Hga.
    repeat split; try assumption. apply (synthesize_speech_status _ _ _ _ _ _ H).
Qed.

Lemma synthesize_speech_outcome_witness :
  synthesize_speech ["checkpoints_v2"] later_env sample_request uploaded =
    (fst (synthesize_speech ["checkpoints_v2"] later_env sample_request uploaded),
     snd (synthesize_speech ["checkpoints_v2"] later_env sample_request uploaded)) /\
  generated_audio (snd (synthesize_speech ["checkpoints_v2"] later_env sample_request uploaded)) =
    [new_audio_row later_env sample_request].
Proof.
  split; [apply surjective_pairing|].
  pose proof (synthesize_speech_outcome ["checkpoints_v2"] later_env sample_request uploaded
                _ _ (surjective_pairing _)) as [_ H].
  vm_compute in H. destruct H as (_ & H & _). vm_compute. exact H.
Defined.

Lemma find_app_fresh {A} (f : A -> bool) (l : list A) (x : A) :
  existsb f l = false -> f x = true -> find f (l ++ [x]) = Some x.
Proof.
  induction l as [|a l IH]; cbn.
  - intros _ ->. reflexivity.
  - destruct (f a); [discriminate|]. exact IH.
Qed.

(** X7: the audio id a successful synthesize request returns can be
    fetched: with a usable database, [get_audio] on that id answers with
    the output file the request wrote, and changes nothing. *)
Theorem synthesize_then_get_audio
    (CHECKPOINT_DIR : path) (E E' : env) (q : tts_request) (w : world)
    (audio_id voice text message : string) (file_path : path) (w' : world) :
  synthesize_speech CHECKPOINT_DIR E q w =
    (Ok (SynthOk audio_id voice text file_path message), w') ->
  db_ok E' = true ->
  get_audio E' audio_id w' =
    (Ok (FileResponse file_path "audio/wav" (audio_id +:+ ".wav")), w') /\
  isfile (fs w') file_path = true.
Proof.
  intros H Hdb.
  destruct (synthesize_speech_ok_state _ _ _ _ _ _ H) as (Hp & _ & Hga & Hdup & Hf & _).
  injection Hp as -> _ _ -> _.
  split; [|exact Hf].
  unfold get_audio, bind at 1, db_connect. rewrite Hdb.
  unfold ret at 1, bind at 1, select_audio_file_path. rewrite Hga.
  rewrite (find_app_fresh _ _ _ Hdup) by (cbn; apply String.eqb_refl).
  cbn [option_map ga_file_path new_audio_row]. unfold bind, get_fs.
  rewrite (isfile_path_exists _ _ Hf). reflexivity.
Qed.

Lemma synthesize_then_get_audio_witness :
  db_ok quiet_env = true /\
  get_audio quiet_env (uuid4 later_env)
    (snd (synthesize_speech ["checkpoints_v2"] later_env sample_request uploaded)) =
    (Ok (FileResponse [AUDIO_DIR; uuid4 later_env +:+ ".wav"] "audio/wav"
           (uuid4 later_env +:+ ".wav")),
     snd (synthesize_speech ["checkpoints_v2"] later_env sample_request uploaded)).
Proof.
  split; [reflexivity|].
  apply (synthesize_then_get_audio ["checkpoints_v2"] later_env quiet_env sample_request
           uploaded (uuid4 later_env) (voice_id sample_request) (text sample_request)
           "Speech synthesized successfully").
  - vm_compute. reflexivity.
  - reflexivity.
Defined.

(** ** Upload, then use *)

(** The state a successful upload leaves. *)
Lemma upload_voice_ok_state (E : env) (f : upload_file) (name : string)
    (description : option string) (w : world) (p : payload) (w' : world) :
  upload_voice E f name description w = (Ok p, w') ->
  p = UploadOk (uuid4 E) name description "Voice uploaded and processed successfully" /\
  voice_models w' = voice_models w ++ [new_voice_row E f name description] /\
  generated_audio w' = generated_audio w /\
  existsb (fun r => String.eqb (vm_id r) (uuid4 E)) (voice_models w) = false /\
  path_exists (fs w') (se_file_path E) = true.
Proof.
  unfold upload_voice.
  destruct (negb _); [discriminate|].
  intros H. apply bind_Ok in H. destruct H as ([] & w1 & Hw & H).
  rewrite write_file_eq in Hw.
  destruct (isdir _ _); [discriminate|].
  destruct (put (fs w) (voice_file_path E f) (File (file f))) as [f1|] eqn:Hput;
    [|discriminate].
  injection Hw as <-.
  assert (voice_file_path E f <> []) as Hne by (unfold voice_file_path; discriminate).
  pose proof (put_resolve _ _ _ _ Hne Hput) as Hres.
  unfold try_except in H.
  destruct (upload_processing E f name description (set_fs f1 w)) as [[p1|e] w2] eqn:Hproc.
  - injection H as <- <-.
    eapply upload_processing_spec in Hproc; [|exact Hres].
    destruct Hproc as (_ & Hga & -> & Hvm & Hsp & _ & _ & Hdup).
    repeat split; assumption.
  - eapply upload_processing_spec in Hproc; [|exact Hres].
    destruct Hproc as (Hfile & _).
    destruct (upload_cleanup_spec E f e w2 Hfile) as (e' & w3 & Hc & _).
    rewrite Hc in H. discriminate.
Qed.




(** ** Read-only endpoints *)

(** X9: the four GET endpoints ([/], [/voices/], [/audio/{id}],
    [/history/]) leave the whole state as it is (working tree, both tables,
    model calls), also when they fail. *)
Theorem get_endpoints_read_only (CHECKPOINT_DIR : path) (E : env) (r : request) (w : world) :
  match r with
  | PostUploadVoice _ _ _ | PostSynthesize _ => True
  | _ => snd (handle CHECKPOINT_DIR E r w) = w
  end.
Proof.
  destruct r as [|f name description| |q|audio_id|]; cbn [handle]; try exact I.
  - reflexivity.
  - unfold list_voices, bind, db_connect. destruct (db_ok E); reflexivity.
  - unfold get_audio, bind, db_connect, ret, select_audio_file_path, get_fs.
    destruct (db_ok E); [|reflexivity].
    destruct (option_map _ _) as [p|]; [|reflexivity].
    destruct (path_exists (fs w) p); reflexivity.
  - unfold get_generation_history, bind, db_connect. destruct (db_ok E); reflexivity.
Qed.

(** ** Primary keys *)

Lemma fails_clean_try_except {A} (body : M A) (handler : exn -> M A) :
  fails_clean body -> (forall e, keeps (handler e)) ->
  fails_clean (try_except body handler).
Proof.
  intros Hb Hh w e w'. unfold try_except.
  destruct (body w) as [[a|e1] w1] eqn:Hw; [discriminate|].
  intros H. pose proof (Hh e1 w1) as Hk. rewrite H in Hk. cbn [snd] in Hk.
  rewrite Hk. apply (Hb w e1 w1 Hw).
Qed.

Lemma fails_clean_upload_voice (E : env) (f : upload_file) (name : string)
    (description : option string) :
  fails_clean (upload_voice E f name description).
Proof.
  unfold upload_voice. destruct (negb _); [apply fails_clean_raise|].
  apply fails_clean_bind; [solve [keeps_auto]|intros _].
  apply fails_clean_try_except; [|intros e; auto with keeps].
  unfold upload_processing. fails_clean_prefix.
  apply fails_clean_insert_voice_model.
Qed.

Lemma NoDup_snoc_fresh {A} (key : A -> string) (l : list A) (x : A) :
  NoDup (map key l) ->
  existsb (fun y => String.eqb (key y) (key x)) l = false ->
  NoDup (map key (l ++ [x])).
Proof.
  intros Hnd Hfresh. rewrite map_app. cbn [map].
  apply NoDup_app. split; [exact Hnd|split; [|apply NoDup_singleton]].
  intros k Hk Hx. apply list_elem_of_singleton in Hx. subst k.
  apply list_elem_of_In, in_map_iff in Hk. destruct Hk as (y & Hy & Hin).
  assert (existsb (fun y => String.eqb (key y) (key x)) l = true) as Ht.
  { apply existsb_exists. exists y. split; [exact Hin|]. apply String.eqb_eq. exact Hy. }
  congruence.
Qed.

Lemma handle_keyed (CHECKPOINT_DIR : path) (E : env) (r : request) (w : world) :
  keyed w -> keyed (snd (handle CHECKPOINT_DIR E r w)).
Proof.
  intros [Hvm Hga]. unfold keyed.
  destruct r as [|f name description| |q|audio_id|]; cbn [handle].
  - split; assumption.
  - destruct (upload_voice E f name description w) as [[p|e] w'] eqn:H; cbn [snd].
    + destruct (upload_voice_ok_state _ _ _ _ _ _ _ H) as (_ & -> & -> & Hdup & _).
      split; [|exact Hga].
      apply (NoDup_snoc_fresh vm_id); assumption.
    + pose proof (fails_clean_upload_voice _ _ _ _ _ _ _ H) as Hdb.
      injection Hdb as -> ->. split; assumption.
  - pose proof (keeps_list_voices E w) as Hdb. injection Hdb as -> ->. split; assumption.
  - destruct (synthesize_speech CHECKPOINT_DIR E q w) as [[p|e] w'] eqn:H; cbn [snd].
    + destruct (synthesize_speech_ok_state _ _ _ _ _ _ H) as (_ & -> & -> & Hdup & _).
      split; [exact Hvm|].
      apply (NoDup_snoc_fresh ga_id); assumption.
    + pose proof (fails_clean_synthesize_speech _ _ _ _ _ _ H) as Hdb.
      injection Hdb as -> ->. split; assumption.
  - pose proof (keeps_get_audio E audio_id w) as Hdb. injection Hdb as -> ->.
    split; assumption.
  - pose proof (keeps_get_generation_history E w) as Hdb. injection Hdb as -> ->.
    split; assumption.
Qed.

Lemma serve_keyed (CHECKPOINT_DIR : path) (rs : list (env * request)) :
  forall w, keyed w -> keyed (serve CHECKPOINT_DIR rs w).
Proof.
  induction rs as [|[E r] rs IH]; intros w Hk; cbn [serve]; [exact Hk|].
  apply IH. apply handle_keyed. exact Hk.
Qed.

(** ** The generation history *)

Lemma insert_desc_perm (e : history_entry) (l : list history_entry) :
  Permutation (insert_desc e l) (e :: l).
Proof.
  induction l as [|x l IH]; cbn; [reflexivity|].
  destruct (String.leb _ _); [reflexivity|].
  rewrite IH. apply perm_swap.
Qed.

Lemma order_by_created_at_desc_perm (l : list history_entry) :
  Permutation (order_by_created_at_desc l) l.
Proof.
  unfold order_by_created_at_desc. induction l as [|x l IH]; cbn; [reflexivity|].
  rewrite insert_desc_perm, IH. reflexivity.
Qed.

Lemma insert_desc_HdRel (a e : history_entry) (l : list history_entry) :
  not_older a e -> HdRel not_older a l -> HdRel not_older a (insert_desc e l).
Proof.
  intros Hae Hal. destruct l as [|x l]; cbn; [constructor; exact Hae|].
  destruct (String.leb _ _); constructor; [exact Hae|].
  inversion Hal; assumption.
Qed.

Lemma insert_desc_sorted (e : history_entry) (l : list history_entry) :
  Sorted not_older l -> Sorted not_older (insert_desc e l).
Proof.
  induction l as [|x l IH]; intros Hs; cbn; [repeat constructor|].
  destruct (String.leb (h_created_at x) (h_created_at e)) eqn:Hle.
  - constructor; [exact Hs|]. constructor. exact Hle.
  - inversion Hs as [|? ? Hs' Hhd]; subst.
    constructor; [apply IH; exact Hs'|].
    apply insert_desc_HdRel; [|exact Hhd].
    unfold not_older.
    destruct (String.leb_total (h_created_at x) (h_created_at e)); congruence.
Qed.

Lemma order_by_created_at_desc_sorted (l : list history_entry) :
  Sorted not_older (order_by_created_at_desc l).
Proof.
  unfold order_by_created_at_desc. induction l as [|x l IH]; cbn; [constructor|].
  apply insert_desc_sorted. exact IH.
Qed.

(** With distinct voice ids, the join finds one voice row per id. *)
Lemma filter_voice_unique (id : string) (vms : list voice_row) (v : voice_row) :
  NoDup (map vm_id vms) -> In v vms -> vm_id v = id ->
  filter (fun vm => id = vm_id vm) vms = [v].
Proof.
  intros Hnd Hin Hid. subst id.
  induction vms as [|a l IH]; [destruct Hin|].
  cbn [map] in Hnd. apply NoDup_cons in Hnd. destruct Hnd as [Hnotin Hnd].
  assert (forall x, In x l -> vm_id x <> vm_id a) as Hother.
  { intros x Hx Heq. apply Hnotin. rewrite <- Heq.
    apply list_elem_of_In, in_map. exact Hx. }
  destruct Hin as [->|Hin].
  - rewrite filter_cons_True by reflexivity. f_equal.
    clear IH Hnd Hnotin. induction l as [|b l IHl]; [reflexivity|].
    rewrite filter_cons_False.
    + apply IHl. intros x Hx. apply Hother. right. exact Hx.
    + intros Heq. apply (Hother b (or_introl eq_refl)). congruence.
  - rewrite filter_cons_False; [apply IH; assumption|].
    intros Heq. apply (Hother v Hin). exact Heq.
Qed.

Lemma join_history_records (gas : list audio_row) (vms : list voice_row)
    (rec : history_entry) :
  In rec (join_history gas vms) ->
  exists ga v, In ga gas /\ In v vms /\ vm_id v = ga_voice_id ga /\ rec = history_of ga v.
Proof.
  unfold join_history. rewrite in_flat_map. intros (ga & Hga & Hrec).
  apply in_map_iff in Hrec. destruct Hrec as (v & <- & Hv).
  apply list_elem_of_In, list_elem_of_filter in Hv. destruct Hv as [Hid Hv].
  apply list_elem_of_In in Hv.
  exists ga, v. repeat split; auto.
Qed.

Lemma join_history_ids (gas : list audio_row) (vms : list voice_row) :
  NoDup (map vm_id vms) ->
  (forall ga, In ga gas -> exists v, In v vms /\ vm_id v = ga_voice_id ga) ->
  map h_audio_id (join_history gas vms) = map ga_id gas.
Proof.
  intros Hnd Href. induction gas as [|ga gas IH]; [reflexivity|].
  unfold join_history in *. cbn [flat_map map]. rewrite map_app, IH.
  - destruct (Href ga (or_introl eq_refl)) as (v & Hv & Hid).
    rewrite (filter_voice_unique _ _ v Hnd Hv Hid). reflexivity.
  - intros ga' Hga'. apply Href. right. exact Hga'.
Qed.

(** X10: in every state reached from an empty database, [/history/]
    answers with exactly one record per row of [generated_audio] (the
    join neither drops nor repeats a row), each built from that row and
    the voice row its voice id names, newest first. *)
Theorem history_lists_every_generation
    (CHECKPOINT_DIR : path) (rs : list (env * request)) (f : node) (E : env) :
  db_ok E = true ->
  exists records,
    get_generation_history E (serve CHECKPOINT_DIR rs (fresh f)) =
      (Ok (HistoryList records), serve CHECKPOINT_DIR rs (fresh f)) /\
    Permutation (map h_audio_id records)
      (map ga_id (generated_audio (serve CHECKPOINT_DIR rs (fresh f)))) /\
    Sorted not_older records /\
    forall rec, In rec records ->
      exists ga v,
        In ga (generated_audio (serve CHECKPOINT_DIR rs (fresh f))) /\
        In v (voice_models (serve CHECKPOINT_DIR rs (fresh f))) /\
        vm_id v = ga_voice_id ga /\ rec = history_of ga v.
Proof.
  intros Hdb. set (w := serve CHECKPOINT_DIR rs (fresh f)).
  assert (keyed w) as [Hkey _].
  { apply serve_keyed. split; constructor. }
  assert (referential w) as Href.
  { apply serve_referential. intros row []. }
  exists (order_by_created_at_desc (join_history (generated_audio w) (voice_models w))).
  split; [|split; [|split]].
  - unfold get_generation_history, bind, db_connect. rewrite Hdb. reflexivity.
  - rewrite order_by_created_at_desc_perm.
    rewrite (join_history_ids _ _ Hkey Href). reflexivity.
  - apply order_by_created_at_desc_sorted.
  - intros rec Hrec. apply join_history_records.
    apply (Permutation_in _ (order_by_created_at_desc_perm _) Hrec).
Qed.

Lemma history_lists_every_generation_witness :
  db_ok quiet_env = true /\
  exists records,
    get_generation_history quiet_env
      (serve ["checkpoints_v2"]
         [(quiet_env, PostUploadVoice wav_upload "Ann" None);
          (later_env, PostSynthesize sample_request)]
         (fresh served_tree)) =
      (Ok (HistoryList records),
       serve ["checkpoints_v2"]
         [(quiet_env, PostUploadVoice wav_upload "Ann" None);
          (later_env, PostSynthesize sample_request)]
         (fresh served_tree)) /\
    map h_audio_id records = [uuid4 later_env].
Proof.
  split; [reflexivity|].
  destruct (history_lists_every_generation ["checkpoints_v2"]
              [(quiet_env, PostUploadVoice wav_upload "Ann" None);
               (later_env, PostSynthesize sample_request)]
              served_tree quiet_env eq_refl) as (records & Hrun & Hperm & _).
  exists records. split; [exact Hrun|].
  vm_compute in Hperm. apply Permutation_sym, Permutation_length_1_inv in Hperm.
  exact Hperm.
Defined.

(** ** The speaker key *)

(** X11: the speaker key handed to the base TTS model is one of the
    model's speakers whenever it has any, [EN] whenever [EN] is among them,
    and [EN] when it has none or has no speaker table. *)
Theorem speaker_key_valid (m : tts_model) :
  (forall l, speakers m = Some l -> l <> [] -> In (speaker_key m) l) /\
  (forall l, speakers m = Some l -> In "EN" l -> speaker_key m = "EN") /\
  (speakers m = None \/ speakers m = Some [] -> speaker_key m = "EN").
Proof.
  unfold speaker_key. split; [|split].
  - intros l -> Hne.
    destruct (existsb (String.eqb "EN") l) eqn:Hex.
    + apply existsb_exists in Hex. destruct Hex as (x & Hx & Heq).
      apply String.eqb_eq in Heq. subst x. exact Hx.
    + destruct l; [contradiction|left; reflexivity].
  - intros l -> Hin.
    assert (existsb (String.eqb "EN") l = true) as ->; [|reflexivity].
    apply existsb_exists. exists "EN". split; [exact Hin|reflexivity].
  - intros [-> | ->]; reflexivity.
Qed.

Lemma speaker_key_valid_witness :
  speakers {| speakers := Some ["default"; "whisper"] |} = Some ["default"; "whisper"] /\
  In (speaker_key {| speakers := Some ["default"; "whisper"] |}) ["default"; "whisper"].
Proof.
  split; [reflexivity|].
  apply (proj1 (speaker_key_valid {| speakers := Some ["default"; "whisper"] |}));
    [reflexivity|discriminate].
Defined.

(** ** The file extension of an upload *)

Lemma occurs_append (c : ascii) (s t : string) :
  occurs c (s +:+ t) = occurs c s || occurs c t.
Proof.
  induction s as [|a s IH]; [reflexivity|].
  change (String a s +:+ t) with (String a (s +:+ t)).
  cbn [occurs]. rewrite IH. apply orb_assoc.
Qed.

Lemma components_no_slash (s : string) :
  forall acc, occurs "/" acc = false ->
    Forall (fun c => occurs "/" c = false) (components s acc).
Proof.
  induction s as [|a s IH]; intros acc Hacc; cbn.
  - repeat constructor. exact Hacc.
  - destruct (Ascii.eqb a "/") eqn:Ha.
    + constructor; [exact Hacc|]. apply IH. reflexivity.
    + apply IH. rewrite occurs_append, Hacc. cbn. rewrite Ha. reflexivity.
Qed.

Lemma name_of_no_slash (s : string) : occurs "/" (name_of s) = false.
Proof.
  unfold name_of.
  destruct (last _) as [c|] eqn:Hlast; [|reflexivity]. cbn.
  apply last_Some_elem_of, list_elem_of_filter in Hlast. destruct Hlast as [_ Hc].
  pose proof (components_no_slash s "" eq_refl) as Hall.
  rewrite Forall_forall in Hall. apply Hall. exact Hc.
Qed.

Lemma rfind_dot_none (s : string) :
  forall k, rfind_dot s k = None -> occurs "." s = false.
Proof.
  induction s as [|a s IH]; intros k; cbn [rfind_dot occurs]; [reflexivity|].
  destruct (rfind_dot s (S k)) eqn:Hr; [discriminate|].
  destruct (Ascii.eqb a "."); [discriminate|].
  intros _. apply (IH _ Hr).
Qed.

(** [rfind_dot] finds the last dot. *)
Lemma rfind_dot_spec (s : string) :
  forall k j, rfind_dot s k = Some j ->
    exists pre post,
      s = pre +:+ String "." post /\ j = (k + String.length pre)%nat /\
      occurs "." post = false.
Proof.
  induction s as [|a s IH]; intros k j; cbn [rfind_dot]; [discriminate|].
  destruct (rfind_dot s (S k)) as [j'|] eqn:Hr.
  - intros [= <-]. destruct (IH _ _ Hr) as (pre & post & -> & -> & Hpost).
    exists (String a pre), post. cbn [String.length]. repeat split; [lia|exact Hpost].
  - destruct (Ascii.eqb a ".") eqn:Ha; [|discriminate].
    intros [= <-]. apply Ascii.eqb_eq in Ha. subst a.
    exists "", s. cbn [String.length]. repeat split; [lia|].
    apply (rfind_dot_none _ _ Hr).
Qed.

Lemma length_append (s t : string) :
  String.length (s +:+ t) = (String.length s + String.length t)%nat.
Proof.
  induction s as [|a s IH]; [reflexivity|].
  change (String a s +:+ t) with (String a (s +:+ t)). cbn [String.length].
  rewrite IH. reflexivity.
Qed.

Lemma substring_skip (pre t : string) (m : nat) :
  substring (String.length pre) m (pre +:+ t) = substring 0 m t.
Proof.
  induction pre as [|a pre IH]; [reflexivity|].
  change (String a pre +:+ t) with (String a (pre +:+ t)). cbn [String.length substring].
  exact IH.
Qed.

Lemma substring_all (t : string) : substring 0 (String.length t) t = t.
Proof. induction t as [|a t IH]; [reflexivity|]. cbn. rewrite IH. reflexivity. Qed.

(** [Path(name).suffix] is empty, or a dot followed by a non-empty text
    without dot or slash. *)
Lemma suffix_shape (s : string) :
  suffix s = "" \/
  exists t, suffix s = String "." t /\ t <> "" /\
            occurs "/" t = false /\ occurs "." t = false.
Proof.
  unfold suffix. pose proof (name_of_no_slash s) as Hslash.
  generalize dependent (name_of s). intros name Hslash.
  destruct (rfind_dot name 0) as [i|] eqn:Hr; [|left; reflexivity].
  destruct (rfind_dot_spec _ _ _ Hr) as (pre & post & -> & -> & Hdot).
  destruct ((0 <? _)%nat && _) eqn:Hcond; [|left; reflexivity].
  right. exists post.
  apply andb_prop in Hcond. destruct Hcond as [_ Hlt].
  apply Nat.ltb_lt in Hlt. rewrite length_append in *. cbn [String.length plus] in *.
  rewrite occurs_append in Hslash. apply orb_false_elim in Hslash.
  destruct Hslash as [_ Hslash]. cbn [occurs] in Hslash.
  apply orb_false_elim in Hslash. destruct Hslash as [_ Hslash].
  split; [|split; [|split; assumption]].
  - replace (String.length pre + S (String.length post) - String.length pre)%nat
      with (S (String.length post)) by lia.
    rewrite substring_skip. cbn [substring]. rewrite substring_all. reflexivity.
  - intros ->. cbn in Hlt. lia.
Qed.

(** X12: the name under which an upload is stored is the generated id
    followed by an extension that always starts with a dot, is never
    empty after it, and contains no slash and no second dot, whatever
    file name the client sent; it is [.wav] when the name has no suffix. *)
Theorem file_extension_shape (f : upload_file) :
  (exists t, file_extension f = String "." t /\ t <> "" /\
             occurs "/" t = false /\ occurs "." t = false) /\
  (suffix (filename f) = "" -> file_extension f = ".wav") /\
  (forall E, voice_file_path E f = [VOICES_DIR; uuid4 E +:+ file_extension f]).
Proof.
  unfold file_extension. split; [|split; [|reflexivity]].
  - destruct (suffix_shape (filename f)) as [->|(t & Ht & Hne & Hs & Hd)].
    + exists "wav". cbn. repeat split. discriminate.
    + rewrite Ht. cbn [String.eqb]. exists t. repeat split; assumption.
  - intros ->. reflexivity.
Qed.

Lemma file_extension_shape_witness :
  suffix (filename {| content_type := "audio/mpeg"; filename := "../../etc/passwd";
                       file := "" |}) = "" /\
  file_extension {| content_type := "audio/mpeg"; filename := "../../etc/passwd";
                    file := "" |} = ".wav".
Proof.
  split; [reflexivity|].
  apply (proj1 (proj2 (file_extension_shape
           {| content_type := "audio/mpeg"; filename := "../../etc/passwd"; file := "" |}))).
  reflexivity.
Defined.

(** ** What is left alone in the working tree *)

Lemma apart_extend (t s p : path) : apart t p -> apart (t ++ s) p.
Proof.
  intros (d & a & r & b & q & -> & -> & Hab).
  exists d, a, (r ++ s), b, q. rewrite <- app_assoc. auto.
Qed.

Lemma put_resolve_apart (t p : path) (f x f' : node) :
  apart t p -> put f t x = Some f' -> resolve f' p = resolve f p.
Proof.
  intros (d & a & r & b & q & -> & -> & Hab). apply put_resolve_other. exact Hab.
Qed.

Lemma remove_resolve_apart_aux (d : path) (a b : string) (r q : path) :
  forall f f', a <> b -> remove f (d ++ a :: r) = Some f' ->
    resolve f' (d ++ b :: q) = resolve f (d ++ b :: q).
Proof.
  induction d as [|c d IH]; intros f f' Hab.
  - destruct f as [y|es]; [discriminate|]. cbn [app].
    destruct r as [|c' r].
    + cbn [remove]. destruct (assoc a es); [|discriminate].
      intros [= <-]. cbn [resolve]. rewrite (assoc_assoc_del_ne _ _ _ Hab). reflexivity.
    + rewrite remove_cons by discriminate.
      destruct (assoc a es) as [n'|]; [|discriminate].
      destruct (remove n' (c' :: r)) as [n''|]; [|discriminate].
      intros [= <-]. cbn [resolve]. rewrite (assoc_assoc_set_ne _ _ _ _ Hab). reflexivity.
  - destruct f as [y|es]; [discriminate|].
    rewrite <- !app_comm_cons, remove_cons by (destruct d; discriminate).
    destruct (assoc c es) as [n'|] eqn:Hc; [|discriminate].
    destruct (remove n' (d ++ a :: r)) as [n''|] eqn:Hp; [|discriminate].
    intros [= <-]. cbn [resolve]. rewrite assoc_assoc_set, Hc.
    apply (IH _ _ Hab Hp).
Qed.

Lemma remove_resolve_apart (t p : path) (f f' : node) :
  apart t p -> remove f t = Some f' -> resolve f' p = resolve f p.
Proof.
  intros (d & a & r & b & q & -> & -> & Hab). apply remove_resolve_apart_aux. exact Hab.
Qed.

Lemma resolve_empty_dir_below (c : string) (q : path) : resolve (Dir []) (c :: q) = None.
Proof. reflexivity. Qed.

Lemma makedirs_resolve_apart_aux (d : path) (a b : string) (r q : path) :
  forall f f', a <> b -> makedirs f (d ++ a :: r) = Some f' ->
    resolve f' (d ++ b :: q) = resolve f (d ++ b :: q).
Proof.
  induction d as [|c d IH]; intros f f' Hab.
  - destruct f as [y|es]; [discriminate|]. cbn [app makedirs].
    destruct (makedirs _ r) as [n''|]; [|discriminate].
    intros [= <-]. cbn [resolve]. rewrite (assoc_assoc_set_ne _ _ _ _ Hab). reflexivity.
  - destruct f as [y|es]; [discriminate|]. rewrite <- !app_comm_cons. cbn [makedirs].
    destruct (makedirs _ (d ++ a :: r)) as [n''|] eqn:Hm; [|discriminate].
    intros [= <-]. cbn [resolve]. rewrite assoc_assoc_set.
    rewrite (IH _ _ Hab Hm).
    destruct (assoc c es); [reflexivity|].
    destruct d; reflexivity.
Qed.

Lemma makedirs_resolve_apart (t p : path) (f f' : node) :
  apart t p -> makedirs f t = Some f' -> resolve f' p = resolve f p.
Proof.
  intros (d & a & r & b & q & -> & -> & Hab). apply makedirs_resolve_apart_aux. exact Hab.
Qed.

Lemma shutil_move_inv_gen (fs tmp : node) (src dst : path) (fs' tmp' : node) :
  shutil_move fs tmp src dst = Some (fs', tmp') ->
  exists x r, put fs (dst ++ r) x = Some fs'.
Proof.
  unfold shutil_move.
  destruct (resolve tmp src) as [x|]; [|discriminate].
  destruct (last src) as [base|]; [|discriminate].
  destruct (isdir fs dst).
  - destruct (_ && _); [discriminate|].
    destruct (match x with File _ => false | Dir _ => _ end); [discriminate|].
    destruct (put fs (dst ++ [base]) x) as [f1|] eqn:Hp; [|discriminate].
    destruct (remove tmp src); [|discriminate].
    intros [= <- _]. eauto.
  - destruct (_ && _); [discriminate|].
    destruct (match x with File _ => false | Dir _ => _ end); [discriminate|].
    destruct (put fs dst x) as [f1|] eqn:Hp; [|discriminate].
    destruct (remove tmp src); [|discriminate].
    intros [= <- _]. exists x, []. rewrite app_nil_r. exact Hp.
Qed.

(** The merge loop writes at and below the target only. *)
Lemma merge_items_apart (root target p : path) :
  apart target p ->
  forall items fs tmp,
    resolve (snd (merge_items root target items fs tmp)) p = resolve fs p.
Proof.
  intros Hap. induction items as [|item rest IH]; intros fs tmp; [reflexivity|].
  cbn [merge_items].
  assert (forall fs' tmp',
            shutil_move fs tmp (root ++ [item]) (target ++ [item]) = Some (fs', tmp') ->
            resolve fs' p = resolve fs p) as Hmove.
  { intros fs' tmp' Hm. apply shutil_move_inv_gen in Hm. destruct Hm as (x & r & Hput).
    apply (put_resolve_apart _ _ _ _ _ (apart_extend _ _ _ (apart_extend _ _ _ Hap)) Hput). }
  destruct (isdir tmp (root ++ [item])).
  - destruct (negb _); [|apply IH].
    destruct (shutil_move fs tmp _ _) as [[fs' tmp']|] eqn:Hm; [|reflexivity].
    rewrite IH. apply (Hmove _ _ eq_refl).
  - destruct (shutil_move fs tmp _ _) as [[fs' tmp']|] eqn:Hm; [|reflexivity].
    rewrite IH. apply (Hmove _ _ eq_refl).
Qed.

Lemma ensure_base_checkpoints_v1_apart (dl : fetched) (fs : node) (p : path) :
  apart ["checkpoints"] p ->
  resolve (snd (ensure_base_checkpoints_v1 dl fs)) p = resolve fs p.
Proof.
  intros Hap. unfold ensure_base_checkpoints_v1, base_dir.
  destruct (forallb _ _); [reflexivity|].
  destruct (makedirs fs ["checkpoints"]) as [fs1|] eqn:Hmk; [|reflexivity].
  pose proof (makedirs_resolve_apart _ _ _ _ Hap Hmk) as H1.
  destruct dl as [| |es]; try exact H1.
  destruct (candidate_root _ _) as [root|]; [|exact H1].
  destruct (listdir _ _) as [items|]; [|exact H1].
  pose proof (merge_items_apart root ["checkpoints"] p Hap items fs1 (Dir es)) as H2.
  destruct (merge_items _ _ _ _ _) as [[[]|e] fs2]; cbn [snd] in *; congruence.
Qed.

(** X13: [ensure_checkpoints] changes nothing outside the checkpoint
    directory, on every outcome: a path that parts ways with
    [checkpoint_dir] resolves after the call as it did before. *)
Theorem ensure_checkpoints_frame
    (checkpoint_dir : path) (dl : fetched) (fs : node) (p : path) :
  apart checkpoint_dir p ->
  resolve (snd (ensure_checkpoints checkpoint_dir dl fs)) p = resolve fs p.
Proof.
  intros Hap. unfold ensure_checkpoints.
  destruct (forallb _ _); [reflexivity|].
  destruct (makedirs fs checkpoint_dir) as [fs1|] eqn:Hmk; [|reflexivity].
  pose proof (makedirs_resolve_apart _ _ _ _ Hap Hmk) as H1.
  destruct dl as [| |es]; try exact H1.
  destruct (candidate_root _ _) as [root|]; [|exact H1].
  destruct (listdir _ _) as [items|]; [|exact H1].
  rewrite (merge_items_apart root checkpoint_dir p Hap). exact H1.
Qed.

Lemma ensure_checkpoints_frame_witness :
  apart ["checkpoints_v2"] ["voices"; "ann.wav"] /\
  resolve
    (snd (ensure_checkpoints ["checkpoints_v2"] (Archive release_archive)
            (Dir [("voices", Dir [("ann.wav", File "RIFF")])])))
    ["voices"; "ann.wav"] = Some (File "RIFF").
Proof.
  assert (apart ["checkpoints_v2"] ["voices"; "ann.wav"]) as Hap.
  { exists [], "checkpoints_v2", [], "voices", ["ann.wav"]. repeat split. discriminate. }
  split; [exact Hap|].
  rewrite (ensure_checkpoints_frame ["checkpoints_v2"] (Archive release_archive) _ _ Hap).
  reflexivity.
Defined.

Section KeepsPath.
Context {A B : Type} (p : path).

Lemma keeps_path_ret (a : A) : keeps_path p (ret a).
Proof. intros w. reflexivity. Qed.

Lemma keeps_path_raise (e : exn) : keeps_path p (@raise A e).
Proof. intros w. reflexivity. Qed.

Lemma keeps_path_lift (r : result A) : keeps_path p (lift r).
Proof. intros w. reflexivity. Qed.



End KeepsPath.

(** A computation that does not change the working tree at all. *)
Lemma keeps_path_same_fs {A} (p : path) (m : M A) :
  (forall w, fs (snd (m w)) = fs w) -> keeps_path p m.
Proof. intros H w. rewrite H. reflexivity. Qed.

Lemma keeps_path_get_fs p : keeps_path p get_fs.
Proof. apply keeps_path_same_fs. reflexivity. Qed.

Lemma keeps_path_call p ev : keeps_path p (call ev).
Proof. apply keeps_path_same_fs. reflexivity. Qed.

Lemma keeps_path_db_connect p E : keeps_path p (db_connect E).
Proof.
  apply keeps_path_same_fs. intros w. unfold db_connect. destruct (db_ok E); reflexivity.
Qed.

Lemma keeps_path_select_se_file_path p id : keeps_path p (select_se_file_path id).
Proof. apply keeps_path_same_fs. reflexivity. Qed.

Lemma keeps_path_insert_voice_model p E r : keeps_path p (insert_voice_model E r).
Proof.
  apply keeps_path_same_fs. intros w. unfold insert_voice_model.
  destruct (negb _); [reflexivity|]. destruct (existsb _ _); reflexivity.
Qed.

Lemma keeps_path_insert_generated_audio p E r : keeps_path p (insert_generated_audio E r).
Proof.
  apply keeps_path_same_fs. intros w. unfold insert_generated_audio.
  destruct (negb _); [reflexivity|]. destruct (existsb _ _); reflexivity.
Qed.

Lemma keeps_path_read_file p t : keeps_path p (read_file t).
Proof. apply keeps_path_same_fs. intros w. rewrite read_file_eq. reflexivity. Qed.

Lemma keeps_path_os_path_exists p t : keeps_path p (os_path_exists t).
Proof. apply keeps_path_same_fs. reflexivity. Qed.

Lemma keeps_path_write_file p t data : apart t p -> keeps_path p (write_file t data).
Proof.
  intros Hap w. rewrite write_file_eq.
  destruct (isdir _ _); [reflexivity|].
  destruct (put _ _ _) as [f'|] eqn:Hp; [|reflexivity].
  apply (put_resolve_apart _ _ _ _ _ Hap Hp).
Qed.

Lemma keeps_path_os_remove p t : apart t p -> keeps_path p (os_remove t).
Proof.
  intros Hap w. rewrite os_remove_eq.
  destruct (isfile _ _); [|reflexivity].
  destruct (remove _ _) as [f'|] eqn:Hr; [|reflexivity].
  apply (remove_resolve_apart _ _ _ _ Hap Hr).
Qed.

Lemma keeps_path_when p b m : keeps_path p m -> keeps_path p (when b m).
Proof. intros H. destruct b; [exact H|apply keeps_path_ret]. Qed.

Lemma keeps_path_call_ensure_base_checkpoints_v1 p E :
  apart ["checkpoints"] p -> keeps_path p (call_ensure_base_checkpoints_v1 E).
Proof.
  intros Hap w. unfold call_ensure_base_checkpoints_v1.
  pose proof (ensure_base_checkpoints_v1_apart (download E) (fs w) p Hap) as H.
  destruct (ensure_base_checkpoints_v1 _ _). exact H.
Qed.

Create HintDb keeps_path.
#[local] Hint Resolve keeps_path_ret keeps_path_raise keeps_path_lift keeps_path_get_fs
  keeps_path_call keeps_path_db_connect keeps_path_select_se_file_path
  keeps_path_insert_voice_model keeps_path_insert_generated_audio keeps_path_read_file
  keeps_path_os_path_exists keeps_path_write_file keeps_path_os_remove keeps_path_when
  keeps_path_call_ensure_base_checkpoints_v1 : keeps_path.





